(** * Layered spatial clipping

    A shallow embedding of the clipping module ([mol-theme/clipping.ts]):
    group flags and their names, the compile step [getClip] that fills the
    fixed-size clip-object arrays, aggregate equality, and the layer algebra
    ([remap], [merge], [filter], [ofBundle], [toBundle]).

    The module's collaborators live in other packages (the structure-element
    selection library, the vector/quaternion helpers, the bit-flag helper).
    They enter the development as interfaces: a type class for the
    operations, classes of laws that follow the specification's description
    of the collaborator, and a concrete, executable instance on which the
    code can be run. *)

From Stdlib Require Import ZArith Floats String List Bool Lia.
From stdpp Require Import base decidable option list gmap strings.

#[local] Open Scope Z_scope.
#[local] Set Warnings "-clear-no-such-hyp".

(* ===================================================================== *)
(** ** ECMAScript primitives used by the source                           *)
(* ===================================================================== *)

(** The operand conversion of the bitwise operators [|] and [&]: wrap to a
    signed 32-bit integer. *)
Definition ToInt32 (z : Z) : Z := (z + 2 ^ 31) mod 2 ^ 32 - 2 ^ 31.

(** [a | b] and [a & b] on integral numbers. *)
Definition js_or (a b : Z) : Z := Z.lor (ToInt32 a) (ToInt32 b).
Definition js_and (a b : Z) : Z := Z.land (ToInt32 a) (ToInt32 b).

(** An operand that may be [undefined] (here [None]): as a number it is NaN,
    which [ToInt32] sends to 0. *)
Definition int_of_value (v : option Z) : Z := default 0 v.

(** A JS number is an IEEE double. *)
Definition number := float.

(** A JS array: a list of slots; [None] is a hole, which reads as
    [undefined]. *)
Abbreviation array A := (list (option A)) (only parsing).

(** [(new Array(n)).fill(v)] *)
Definition array_fill {A} (n : nat) (v : A) : array A := replicate n (Some v).

(** [a[i]] *)
Definition array_get {A} (a : array A) (i : nat) : option A :=
  match a !! i with Some slot => slot | None => None end.

(** [a[i] = v]: overwrites inside the array, and past its end extends it
    (leaving holes between the old end and [i]). *)
Definition array_set {A} (a : array A) (i : nat) (v : A) : array A :=
  if decide (i < length a)%nat then <[i := Some v]> a
  else a ++ replicate (i - length a) None ++ [Some v].

(** [Map<number, V>]: entries in insertion order; keys are compared by value
    and [set] on a present key keeps its position. *)
Abbreviation JsMap V := (list (Z * V)) (only parsing).

Fixpoint map_get {V} (m : JsMap V) (k : Z) : option V :=
  match m with
  | [] => None
  | (k', v) :: m' => if k' =? k then Some v else map_get m' k
  end.

Definition map_has {V} (m : JsMap V) (k : Z) : bool :=
  match map_get m k with Some _ => true | None => false end.

Fixpoint map_set {V} (m : JsMap V) (k : Z) (v : V) : JsMap V :=
  match m with
  | [] => [(k, v)]
  | (k', v') :: m' =>
      if k' =? k then (k', v) :: m' else (k', v') :: map_set m' k v
  end.

(** The outcome of a call: a value, or a thrown error of one of the kinds
    of the specification's error taxonomy. *)
Inductive ErrorKind := InvalidArgument | TooManyPrimitives.

Inductive completion (A : Type) :=
| Returns (a : A)
| Throws (e : ErrorKind).
Arguments Returns {A} a.
Arguments Throws {A} e.

(* ===================================================================== *)
(** ** Collaborators from other packages                                  *)
(* ===================================================================== *)

Module BitFlags.

(** Modelled from the spec: [BitFlags.create] of [mol-util/bit-flags],
    which is not among the sources; it wraps a raw bit pattern. *)
Definition create (flags : Z) : Z := flags.

(** Modelled from the spec: [BitFlags.has] of [mol-util/bit-flags], which
    is not among the sources; it is the bitwise test of [flag] in
    [flags]. *)
Definition has (flags flag : Z) : bool := negb (js_and flags flag =? 0).

End BitFlags.

(** The host's [Math.sin] and [Math.cos]. ECMAScript leaves their accuracy
    to the implementation but fixes the results at zero: [Math.sin(+0)] is
    [+0] and [Math.cos(+0)] is [1]. *)
Class MathLib := {
  Math_sin : number -> number;
  Math_cos : number -> number;
  Math_sin_zero : Math_sin 0%float = 0%float;
  Math_cos_zero : Math_cos 0%float = 1%float;
}.

(** Modelled from the spec: [degToRad] of [mol-math/misc], which is not
    among the sources; it converts an angle from degrees to radians, here
    by the double nearest to pi/180. *)
Definition degToRad (deg : number) : number :=
  (deg * 0x1.1df46a2529d39p-6)%float.

Module Vec3.

(** Modelled from the spec: the [Vec3] type of [mol-math/linear-algebra],
    which is not among the sources; a vector is three numbers. *)
Definition Vec3 := (number * number * number)%type.

(** Modelled from the spec: [Vec3.toArray] of [mol-math/linear-algebra],
    which is not among the sources; it writes the three numbers to the
    consecutive slots from [offset] and returns the array. *)
Definition toArray (v : Vec3) (out : array number) (offset : nat) : array number :=
  let '(x, y, z) := v in
  let out := array_set out offset x in
  let out := array_set out (offset + 1) y in
  array_set out (offset + 2) z.

End Vec3.

Module Quat.

(** Modelled from the spec: the [Quat] type of [mol-math/linear-algebra],
    which is not among the sources; a quaternion is four numbers
    (x, y, z, w). *)
Definition Quat := (number * number * number * number)%type.

(** Modelled from the spec: [Quat.setAxisAngle] of
    [mol-math/linear-algebra], which is not among the sources; it builds
    the quaternion of the rotation by [rad] about [axis]: the axis scaled
    by the sine of half the angle, and the cosine of half the angle. *)
Definition setAxisAngle `{MathLib} (axis : Vec3.Vec3) (rad : number) : Quat :=
  let '(ax, ay, az) := axis in
  let rad := (rad * 0.5)%float in
  let s := Math_sin rad in
  ((s * ax)%float, (s * ay)%float, (s * az)%float, Math_cos rad).

(** Modelled from the spec: [Quat.toArray] of [mol-math/linear-algebra],
    which is not among the sources; it writes the four numbers to the
    consecutive slots from [offset] and returns the array. *)
Definition toArray (q : Quat) (out : array number) (offset : nat) : array number :=
  let '(x, y, z, w) := q in
  let out := array_set out offset x in
  let out := array_set out (offset + 1) y in
  let out := array_set out (offset + 2) z in
  array_set out (offset + 3) w.

End Quat.

(** Strict equality [===] of two slots holding numbers: IEEE equality on
    numbers (NaN differs from itself), and [undefined] equals [undefined]. *)
Definition number_eqb (a b : option number) : bool :=
  match a, b with
  | Some x, Some y => PrimFloat.eqb x y
  | None, None => true
  | _, _ => false
  end.

(** Modelled from the spec: [Vec3.fromArray]/[Quat.fromArray] followed by
    [Vec3.equals]/[Quat.equals], of [mol-math/linear-algebra], which is not
    among the sources; together they compare [n] consecutive slots of two
    arrays from [offset], componentwise and without tolerance. *)
Definition slots_equal (a b : array number) (offset n : nat) : bool :=
  forallb (fun k => number_eqb (array_get a (offset + k)) (array_get b (offset + k)))
          (seq 0 n).

(** Modelled from the spec: the operations of the structure-element
    selection library ([StructureElement.Loci], [StructureElement.Bundle]
    and [Loci.areEqual] of [mol-model], [Script.toLoci] of [mol-script]),
    which are not among the sources. A selection is opaque and bound to a
    structure; the library provides [none], [isEmpty], [union], [subtract],
    [remap] and an equality; a bundle is a structure-independent
    serialisation of a selection that [toLoci] resolves against a
    structure. *)
Class Substrate := {
  Structure : Type;
  Loci : Type;
  Bundle : Type;
  Script : Type;
  Structure_root : Structure -> Structure;
  Loci_structure : Loci -> Structure;
  Loci_none : Structure -> Loci;
  Loci_isEmpty : Loci -> bool;
  Loci_union : Loci -> Loci -> Loci;
  Loci_subtract : Loci -> Loci -> Loci;
  Loci_remap : Loci -> Structure -> Loci;
  Loci_areEqual : Loci -> Loci -> bool;
  Bundle_fromLoci : Loci -> Bundle;
  Bundle_toLoci : Bundle -> Structure -> Loci;
  Script_toLoci : Script -> Structure -> Loci;
}.

(** Modelled from the spec: what the operations of the selection library
    mean. A selection stands for a set of structural elements
    ([Loci_elements]); [none] is the empty set, [isEmpty] tests for it,
    [union] and [subtract] are the set operations, and two selections are
    loci-equal when they stand for the same set. Nothing is asked of
    [remap] and of [Script.toLoci]. *)
Class SetLaws `{Substrate} := {
  Element : Type;
  Element_eq_dec :: EqDecision Element;
  Element_countable :: Countable Element;
  Loci_elements : Loci -> gset Element;
  elements_none : forall s, Loci_elements (Loci_none s) = ∅;
  elements_union : forall a b,
    Loci_elements (Loci_union a b) = Loci_elements a ∪ Loci_elements b;
  elements_subtract : forall a b,
    Loci_elements (Loci_subtract a b) = Loci_elements a ∖ Loci_elements b;
  isEmpty_elements : forall a,
    Loci_isEmpty a = true <-> Loci_elements a = ∅;
  areEqual_elements : forall a b,
    Loci_areEqual a b = true <-> Loci_elements a = Loci_elements b;
}.

(** Modelled from the spec: a bundle is the inverse direction of
    [toLoci]; resolved against the root of the structure the selection was
    bound to, it gives the elements of the selection back. *)
Class BundleLaws `{SetLaws} := {
  bundle_elements : forall l,
    Loci_elements
      (Bundle_toLoci (Bundle_fromLoci l) (Structure_root (Loci_structure l)))
    = Loci_elements l;
}.

(* ===================================================================== *)
(** ** The clipping module                                                *)
(* ===================================================================== *)

Module Clipping.

Module Groups.

Definition Groups := Z.

(** [is] in the source (a reserved word here). *)
Definition is_ (g : Groups) (f : Z) : bool := BitFlags.has g f.

Module Flag.
Definition None : Z := 0x0.
Definition One : Z := 0x1.
Definition Two : Z := 0x2.
Definition Three : Z := 0x4.
Definition Four : Z := 0x8.
Definition Five : Z := 0x10.
Definition Six : Z := 0x20.
End Flag.

Definition create (flags : Z) : Groups := BitFlags.create flags.

(** The [Names] object, as its own entries in declaration order. *)
Definition Names : list (string * Z) :=
  [ ("one", Flag.One); ("two", Flag.Two); ("three", Flag.Three);
    ("four", Flag.Four); ("five", Flag.Five); ("six", Flag.Six) ]%string.

(** [isName]: [name in Names]. The [in] operator finds the six own
    properties of the object and the properties it inherits from its
    prototype, [Object.prototype]; the names of the latter belong to the
    host and are the parameter [inherited]. *)
Definition isName (inherited : list string) (name : string) : bool :=
  bool_decide (name ∈ Names.*1 ++ inherited).

(** [fromName]: a [switch] with six cases and no default, so any other
    string falls out of the function, which then returns [undefined]. *)
Definition fromName (name : string) : option Z :=
  if (name =? "one")%string then Some Flag.One
  else if (name =? "two")%string then Some Flag.Two
  else if (name =? "three")%string then Some Flag.Three
  else if (name =? "four")%string then Some Flag.Four
  else if (name =? "five")%string then Some Flag.Five
  else if (name =? "six")%string then Some Flag.Six
  else Datatypes.None.

(** [fromNames]: [f |= fromName(names[i])] for each index in turn. *)
Definition fromNames (names : list string) : Z :=
  fold_left (fun f name => js_or f (int_of_value (fromName name))) names Flag.None.

(** Neither [fromNames] nor [fromName] has a [throw], and [|=] accepts
    [undefined]: every call completes with a value. *)
Definition fromNames_outcome (names : list string) : completion Z :=
  Returns (fromNames names).

(** [toNames]: six tests in a fixed order, each pushing onto [names]. *)
Definition toNames (groups : Groups) : list string :=
  let names := [] in
  let names := if is_ groups Flag.One then names ++ ["one"%string] else names in
  let names := if is_ groups Flag.Two then names ++ ["two"%string] else names in
  let names := if is_ groups Flag.Three then names ++ ["three"%string] else names in
  let names := if is_ groups Flag.Four then names ++ ["four"%string] else names in
  let names := if is_ groups Flag.Five then names ++ ["five"%string] else names in
  let names := if is_ groups Flag.Six then names ++ ["six"%string] else names in
  names.

End Groups.

(** Clip object types *)
Inductive TypeName := none | plane | sphere | cube | cylinder | infiniteCone.

(** The [Type] table. *)
Definition Type_ (t : TypeName) : Z :=
  match t with
  | none => 0
  | plane => 1
  | sphere => 2
  | cube => 3
  | cylinder => 4
  | infiniteCone => 5
  end.

(** The [Variant] type. *)
Inductive Variant_ := instance | pixel.

Module Objects.
Record t := {
  count : nat;
  type : array Z;
  invert : array bool;
  position : array number;
  rotation : array number;
  scale : array number;
}.
End Objects.

(** [createClipObjects] (declared before the namespace in the source). *)
Definition createClipObjects : Objects.t :=
  {| Objects.count := 0;
     Objects.type := array_fill 5 1;
     Objects.invert := array_fill 5 false;
     Objects.position := array_fill (5 * 3) 0%float;
     Objects.rotation := array_fill (5 * 4) 0%float;
     Objects.scale := array_fill (5 * 3) 1%float |}.

(** One entry of [Params.objects]. *)
Module ObjectProps.
Record rotation_t := { axis : Vec3.Vec3; angle : number }.
Record t := {
  type : TypeName;
  invert : bool;
  position : Vec3.Vec3;
  rotation : rotation_t;
  scale : Vec3.Vec3;
}.
End ObjectProps.

Module Props.
Record t := { variant : Variant_; objects : list ObjectProps.t }.
End Props.

Module Clip.
Record t := { variant : Variant_; objects : Objects.t }.
End Clip.

(** The five arrays [getClip] destructures and writes through. *)
Definition ClipArrays : Type :=
  array Z * array bool * array number * array number * array number.

(** The body of [getClip]'s loop at index [i], for the descriptors from
    [i] on. *)
Fixpoint getClip_loop `{MathLib} (i : nat) (ps : list ObjectProps.t)
    (arrays : ClipArrays) : ClipArrays :=
  match ps with
  | [] => arrays
  | p :: ps' =>
      let '(type, invert, position, rotation, scale) := arrays in
      let type := array_set type i (Type_ (ObjectProps.type p)) in
      let invert := array_set invert i (ObjectProps.invert p) in
      let position := Vec3.toArray (ObjectProps.position p) position (i * 3) in
      let rotation :=
        Quat.toArray
          (Quat.setAxisAngle (ObjectProps.axis (ObjectProps.rotation p))
                             (degToRad (ObjectProps.angle (ObjectProps.rotation p))))
          rotation (i * 4) in
      let scale := Vec3.toArray (ObjectProps.scale p) scale (i * 3) in
      getClip_loop (S i) ps' (type, invert, position, rotation, scale)
  end.

(** [clip?.objects || createClipObjects()]: the objects of the clip when
    one is supplied, fresh ones otherwise. *)
Definition objects_or_fresh (clip : option Clip.t) : Objects.t :=
  match clip with
  | Some c => Clip.objects c
  | None => createClipObjects
  end.

(** [getClip(props, clip?)]: the arrays of [objects_or_fresh clip] are
    written in place and returned; [count] is the number of descriptors. *)
Definition getClip `{MathLib} (props : Props.t) (clip : option Clip.t) : Clip.t :=
  let o := objects_or_fresh clip in
  let '(type, invert, position, rotation, scale) :=
    getClip_loop 0 (Props.objects props)
      (Objects.type o, Objects.invert o, Objects.position o,
       Objects.rotation o, Objects.scale o) in
  {| Clip.variant := Props.variant props;
     Clip.objects :=
       {| Objects.count := length (Props.objects props);
          Objects.type := type;
          Objects.invert := invert;
          Objects.position := position;
          Objects.rotation := rotation;
          Objects.scale := scale |} |}.

Record Layer `{Substrate} := { loci : Loci; groups : Groups.Groups }.

Record Clipping `{Substrate} := {
  layers : list Layer;
  variant : Variant_;
  objects : Objects.t;
}.

Definition Empty `{Substrate} : Clipping :=
  {| layers := []; variant := pixel; objects := createClipObjects |}.

(** The first loop of [areEqual], once the layer counts agree. *)
Definition layers_equal `{Substrate} (lA lB : list Layer) : bool :=
  forallb (fun '(a, b) =>
             (groups a =? groups b) && Loci_areEqual (loci a) (loci b))
          (zip lA lB).

(** The second loop of [areEqual], over the slots below [count]. *)
Definition objects_equal (oA oB : Objects.t) : bool :=
  forallb (fun i =>
             bool_decide (array_get (Objects.invert oA) i = array_get (Objects.invert oB) i)
             && bool_decide (array_get (Objects.type oA) i = array_get (Objects.type oB) i)
             && slots_equal (Objects.position oA) (Objects.position oB) (i * 3) 3
             && slots_equal (Objects.scale oA) (Objects.scale oB) (i * 3) 3
             && slots_equal (Objects.rotation oA) (Objects.rotation oB) (i * 4) 4)
          (seq 0 (Objects.count oA)).

Definition Variant_eqb (a b : Variant_) : bool :=
  match a, b with
  | instance, instance | pixel, pixel => true
  | _, _ => false
  end.

Definition areEqual `{Substrate} (cA cB : Clipping) : bool :=
  if negb (length (layers cA) =? length (layers cB))%nat then false
  else if negb (layers_equal (layers cA) (layers cB)) then false
  else if negb (Variant_eqb (variant cA) (variant cB)) then false
  else if negb (Objects.count (objects cA) =? Objects.count (objects cB))%nat then false
  else objects_equal (objects cA) (objects cB).

(** Check if layers empty *)
Definition isEmpty `{Substrate} (clipping : Clipping) : bool :=
  (length (layers clipping) =? 0)%nat.

(** Remap layers *)
Definition remap `{Substrate} (clipping : Clipping) (structure : Structure) : Clipping :=
  let layers_ :=
    fold_left
      (fun acc layer =>
         let l := Loci_remap (loci layer) structure in
         if negb (Loci_isEmpty l)
         then acc ++ [ {| loci := l; groups := groups layer |} ]
         else acc)
      (layers clipping) [] in
  {| layers := layers_; variant := variant clipping; objects := objects clipping |}.

(** One turn of [merge]'s loop: the state is the map and [shadowed]. *)
Definition merge_step `{Substrate} (st : JsMap Loci * Loci) (layer : Layer)
    : JsMap Loci * Loci :=
  let '(map, shadowed) := st in
  let l := Loci_subtract (loci layer) shadowed in
  let shadowed := Loci_union l shadowed in
  if negb (Loci_isEmpty l) then
    let l :=
      if map_has map (groups layer)
      then match map_get map (groups layer) with
           | Some old => Loci_union l old
           | None => l
           end
      else l in
    (map_set map (groups layer) l, shadowed)
  else (map, shadowed).

(** Merge layers: the loop visits [layers[il - i - 1]], that is the layers
    from the last to the first; the map's entries become the layers. *)
Definition merge `{Substrate} (clipping : Clipping) : Clipping :=
  match layers clipping with
  | [] => clipping
  | layer0 :: _ =>
      let structure := Loci_structure (loci layer0) in
      let '(map, _) :=
        fold_left merge_step (rev (layers clipping)) ([], Loci_none structure) in
      {| layers := List.map (fun '(g, l) => {| loci := l; groups := g |}) map;
         variant := variant clipping;
         objects := objects clipping |}
  end.

(** Filter layers *)
Definition filter `{Substrate} (clipping : Clipping) (filter_ : Structure) : Clipping :=
  match layers clipping with
  | [] => clipping
  | layer0 :: _ =>
      let structure := Loci_structure (loci layer0) in
      let layers_ :=
        fold_left
          (fun acc layer =>
             let filtered := Loci_remap (loci layer) filter_ in
             let l := Loci_remap filtered structure in
             if negb (Loci_isEmpty l)
             then acc ++ [ {| loci := l; groups := groups layer |} ]
             else acc)
          (layers clipping) [] in
      {| layers := layers_; variant := variant clipping; objects := objects clipping |}
  end.

Module ScriptLayer.
Record t `{Substrate} := { script : Script; groups : Groups.Groups }.
End ScriptLayer.

Definition ofScript `{Substrate} (scriptLayers : list ScriptLayer.t)
    (structure : Structure) (clip : Clip.t) : Clipping :=
  let layers_ :=
    fold_left
      (fun acc sl =>
         let l := Script_toLoci (ScriptLayer.script sl) structure in
         if negb (Loci_isEmpty l)
         then acc ++ [ {| loci := l; groups := ScriptLayer.groups sl |} ]
         else acc)
      scriptLayers [] in
  {| layers := layers_; variant := Clip.variant clip; objects := Clip.objects clip |}.

Module BundleLayer.
Record t `{Substrate} := { bundle : Bundle; groups : Groups.Groups }.
End BundleLayer.

Definition ofBundle `{Substrate} (bundleLayers : list BundleLayer.t)
    (structure : Structure) (clip : Clip.t) : Clipping :=
  let layers_ :=
    fold_left
      (fun acc bl =>
         let l := Bundle_toLoci (BundleLayer.bundle bl) (Structure_root structure) in
         acc ++ [ {| loci := l; groups := BundleLayer.groups bl |} ])
      bundleLayers [] in
  {| layers := layers_; variant := Clip.variant clip; objects := Clip.objects clip |}.

(** The object [{ layers }] that [toBundle] returns. *)
Module Bundled.
Record t `{Substrate} := { layers : list BundleLayer.t }.
End Bundled.

Definition toBundle `{Substrate} (clipping : Clipping) : Bundled.t :=
  let layers_ :=
    fold_left
      (fun acc layer =>
         let bundle := Bundle_fromLoci (loci layer) in
         acc ++ [ {| BundleLayer.bundle := bundle; BundleLayer.groups := groups layer |} ])
      (layers clipping) [] in
  {| Bundled.layers := layers_ |}.

(** A [Clipping] passed where a [Clip] is expected (it has both fields). *)
Definition asClip `{Substrate} (clipping : Clipping) : Clip.t :=
  {| Clip.variant := variant clipping; Clip.objects := objects clipping |}.

End Clipping.

(* ===================================================================== *)
(** ** The arrays of a clip as shared objects                              *)
(* ===================================================================== *)

(** [getClip] destructures the arrays of the clip it is given, writes
    through them and returns an [objects] record that refers to the very
    same arrays; only [count] and [variant] are new. Here the arrays live
    in a store and the records hold references to them, so that a write
    through one record is seen through every record holding the
    reference. The store has one pool for each declared element type
    ([number[]] of type codes, [boolean[]], [number[]] of coordinates); a
    reference is an index into its pool. *)
Module InPlace.

Import Clipping.

Record Store := {
  type_arrays : list (array Z);
  flag_arrays : list (array bool);
  number_arrays : list (array number);
}.

(** The array a reference stands for. *)
Definition read {A} (pool : list (array A)) (r : nat) : array A :=
  default [] (pool !! r).

(** The [Objects] type with references for its arrays. *)
Module Objects.
Record t := {
  count : nat;
  type : nat;
  invert : nat;
  position : nat;
  rotation : nat;
  scale : nat;
}.
End Objects.

Module Clip.
Record t := { variant : Variant_; objects : Objects.t }.
End Clip.

(** [createClipObjects]: five new arrays, allocated at the end of their
    pools. *)
Definition createClipObjects (st : Store) : Objects.t * Store :=
  let type := length (type_arrays st) in
  let invert := length (flag_arrays st) in
  let position := length (number_arrays st) in
  let rotation := S position in
  let scale := S rotation in
  ({| Objects.count := 0;
      Objects.type := type;
      Objects.invert := invert;
      Objects.position := position;
      Objects.rotation := rotation;
      Objects.scale := scale |},
   {| type_arrays := type_arrays st ++ [array_fill 5 1];
      flag_arrays := flag_arrays st ++ [array_fill 5 false];
      number_arrays :=
        number_arrays st
        ++ [array_fill (5 * 3) 0%float; array_fill (5 * 4) 0%float;
            array_fill (5 * 3) 1%float] |}).

(** The body of [getClip]'s loop for the descriptor [p] at index [i]: five
    writes, each through a reference, one after the other. *)
Definition write_row `{MathLib} (i : nat) (p : ObjectProps.t) (o : Objects.t)
    (st : Store) : Store :=
  let types := type_arrays st in
  let types :=
    <[Objects.type o := array_set (read types (Objects.type o)) i
                          (Type_ (ObjectProps.type p))]> types in
  let flags := flag_arrays st in
  let flags :=
    <[Objects.invert o := array_set (read flags (Objects.invert o)) i
                            (ObjectProps.invert p)]> flags in
  let numbers := number_arrays st in
  let numbers :=
    <[Objects.position o :=
        Vec3.toArray (ObjectProps.position p) (read numbers (Objects.position o))
                     (i * 3)]> numbers in
  let numbers :=
    <[Objects.rotation o :=
        Quat.toArray
          (Quat.setAxisAngle (ObjectProps.axis (ObjectProps.rotation p))
                             (degToRad (ObjectProps.angle (ObjectProps.rotation p))))
          (read numbers (Objects.rotation o)) (i * 4)]> numbers in
  let numbers :=
    <[Objects.scale o :=
        Vec3.toArray (ObjectProps.scale p) (read numbers (Objects.scale o))
                     (i * 3)]> numbers in
  {| type_arrays := types; flag_arrays := flags; number_arrays := numbers |}.

Fixpoint getClip_loop `{MathLib} (i : nat) (ps : list ObjectProps.t)
    (o : Objects.t) (st : Store) : Store :=
  match ps with
  | [] => st
  | p :: ps' => getClip_loop (S i) ps' o (write_row i p o st)
  end.

(** [getClip(props, clip?)] on the store: the result holds the references
    of [clip.objects], or those of new arrays when no clip is given. *)
Definition getClip `{MathLib} (props : Props.t) (clip : option Clip.t) (st : Store)
    : Clip.t * Store :=
  let '(o, st) :=
    match clip with
    | Some c => (Clip.objects c, st)
    | None => createClipObjects st
    end in
  let st := getClip_loop 0 (Props.objects props) o st in
  ({| Clip.variant := Props.variant props;
      Clip.objects :=
        {| Objects.count := length (Props.objects props);
           Objects.type := Objects.type o;
           Objects.invert := Objects.invert o;
           Objects.position := Objects.position o;
           Objects.rotation := Objects.rotation o;
           Objects.scale := Objects.scale o |} |},
   st).

(** What a record of references reads in a store. *)
Definition deref (st : Store) (o : Objects.t) : Clipping.Objects.t :=
  {| Clipping.Objects.count := Objects.count o;
     Clipping.Objects.type := read (type_arrays st) (Objects.type o);
     Clipping.Objects.invert := read (flag_arrays st) (Objects.invert o);
     Clipping.Objects.position := read (number_arrays st) (Objects.position o);
     Clipping.Objects.rotation := read (number_arrays st) (Objects.rotation o);
     Clipping.Objects.scale := read (number_arrays st) (Objects.scale o) |}.

Definition deref_clip (st : Store) (c : Clip.t) : Clipping.Clip.t :=
  {| Clipping.Clip.variant := Clip.variant c;
     Clipping.Clip.objects := deref st (Clip.objects c) |}.

(** The references of [o] stand for five arrays of the store, no two of
    them the same array. *)
Definition separate (st : Store) (o : Objects.t) : Prop :=
  (Objects.type o < length (type_arrays st))%nat
  /\ (Objects.invert o < length (flag_arrays st))%nat
  /\ (Objects.position o < length (number_arrays st))%nat
  /\ (Objects.rotation o < length (number_arrays st))%nat
  /\ (Objects.scale o < length (number_arrays st))%nat
  /\ Objects.position o <> Objects.rotation o
  /\ Objects.position o <> Objects.scale o
  /\ Objects.rotation o <> Objects.scale o.

(** Two stores hold the same in every array but those of [o]. *)
Definition same_elsewhere (st st' : Store) (o : Objects.t) : Prop :=
  length (type_arrays st') = length (type_arrays st)
  /\ length (flag_arrays st') = length (flag_arrays st)
  /\ length (number_arrays st') = length (number_arrays st)
  /\ (forall r, r <> Objects.type o -> type_arrays st' !! r = type_arrays st !! r)
  /\ (forall r, r <> Objects.invert o -> flag_arrays st' !! r = flag_arrays st !! r)
  /\ (forall r, r <> Objects.position o -> r <> Objects.rotation o ->
                r <> Objects.scale o ->
                number_arrays st' !! r = number_arrays st !! r).

(** The arrays of the first store are arrays of the second, unchanged. *)
Definition extends (st st' : Store) : Prop :=
  (exists more, type_arrays st' = type_arrays st ++ more)
  /\ (exists more, flag_arrays st' = flag_arrays st ++ more)
  /\ (exists more, number_arrays st' = number_arrays st ++ more).

(** The five arrays of [o], as the loop of the value-level [getClip] takes
    them. *)
Definition arrays_of (st : Store) (o : Objects.t) : ClipArrays :=
  (read (type_arrays st) (Objects.type o),
   read (flag_arrays st) (Objects.invert o),
   read (number_arrays st) (Objects.position o),
   read (number_arrays st) (Objects.rotation o),
   read (number_arrays st) (Objects.scale o)).

(** The five references of a record. *)
Definition refs (o : Objects.t) : nat * nat * nat * nat * nat :=
  (Objects.type o, Objects.invert o, Objects.position o, Objects.rotation o,
   Objects.scale o).

(** An [Objects] with another [count] and the same arrays. *)
Definition recounted (n : nat) (o : Clipping.Objects.t) : Clipping.Objects.t :=
  {| Clipping.Objects.count := n;
     Clipping.Objects.type := Clipping.Objects.type o;
     Clipping.Objects.invert := Clipping.Objects.invert o;
     Clipping.Objects.position := Clipping.Objects.position o;
     Clipping.Objects.rotation := Clipping.Objects.rotation o;
     Clipping.Objects.scale := Clipping.Objects.scale o |}.

(** The store with nothing allocated. *)
Definition empty_store : Store :=
  {| type_arrays := []; flag_arrays := []; number_arrays := [] |}.

End InPlace.

(* ===================================================================== *)
(** ** Vocabulary of the properties                                       *)
(* ===================================================================== *)

Section GroupVocabulary.

Import Clipping.Groups.

(** A token is one of the six defined names: it is a key of [Names]. *)
Definition isDefinedName (name : string) : bool :=
  bool_decide (name ∈ Names.*1).

(** The bitwise OR of a list of flags, starting from [Flag.None]. *)
Definition combination (fs : list Z) : Z := fold_right Z.lor Flag.None fs.

(** A value that is an OR of defined bits (the empty OR included). *)
Definition isCombination (x : Z) : Prop :=
  exists fs, Forall (fun f => f ∈ Names.*2) fs /\ x = combination fs.

(** The names of the bits set in [x], in the order of the enumeration. *)
Definition namesInOrder (x : Z) : list string :=
  (List.filter (fun '(_, f) => is_ x f) Names).*1.

(** The entry of the [Names] table for a name, if it has one. *)
Definition tableFlag (name : string) : option Z :=
  snd <$> List.find (fun '(n, _) => (n =? name)%string) Names.

(** The value with exactly the chosen ones of the six bits set. *)
Definition mask (b1 b2 b3 b4 b5 b6 : bool) : Z :=
  (if b1 then Flag.One else 0) + (if b2 then Flag.Two else 0)
  + (if b3 then Flag.Three else 0) + (if b4 then Flag.Four else 0)
  + (if b5 then Flag.Five else 0) + (if b6 then Flag.Six else 0).

(** The name occurs in the list. *)
Definition present (names : list string) (name : string) : bool :=
  existsb (String.eqb name) names.

End GroupVocabulary.

(** Consecutive writes [a[offset] = v0; a[offset + 1] = v1; ...]. *)
Fixpoint array_write {A} (a : array A) (offset : nat) (vs : list A) : array A :=
  match vs with
  | [] => a
  | v :: vs' => array_write (array_set a offset v) (S offset) vs'
  end.

(** The loop of [getClip] seen through one array that takes [w] slots per
    descriptor. *)
Fixpoint slots_loop {A P} (w : nat) (vals : P -> list A) (i : nat)
    (ps : list P) (a : array A) : array A :=
  match ps with
  | [] => a
  | p :: ps' => slots_loop w vals (S i) ps' (array_write a (i * w) (vals p))
  end.

Definition vec3_slots (v : Vec3.Vec3) : list number :=
  let '(x, y, z) := v in [x; y; z].

Definition quat_slots (q : Quat.Quat) : list number :=
  let '(x, y, z, w) := q in [x; y; z; w].

(** The slots [offset], [offset + 1], ... of [a] hold the values [vs]. *)
Definition holds_at {A} (a : array A) (offset : nat) (vs : list A) : Prop :=
  forall k v, vs !! k = Some v -> array_get a (offset + k) = Some v.

(** The rotation a descriptor stands for. *)
Definition rotation_of `{MathLib} (p : Clipping.ObjectProps.t) : Quat.Quat :=
  Quat.setAxisAngle
    (Clipping.ObjectProps.axis (Clipping.ObjectProps.rotation p))
    (degToRad (Clipping.ObjectProps.angle (Clipping.ObjectProps.rotation p))).

(** Descriptor [p] is stored in row [i] of the compiled arrays. *)
Definition stored_at `{MathLib} (o : Clipping.Objects.t) (i : nat)
    (p : Clipping.ObjectProps.t) : Prop :=
  array_get (Clipping.Objects.type o) i
    = Some (Clipping.Type_ (Clipping.ObjectProps.type p))
  /\ array_get (Clipping.Objects.invert o) i = Some (Clipping.ObjectProps.invert p)
  /\ holds_at (Clipping.Objects.position o) (i * 3)
       (vec3_slots (Clipping.ObjectProps.position p))
  /\ holds_at (Clipping.Objects.rotation o) (i * 4) (quat_slots (rotation_of p))
  /\ holds_at (Clipping.Objects.scale o) (i * 3)
       (vec3_slots (Clipping.ObjectProps.scale p)).

(** The descriptor of the compile scenario. *)
Definition scenario_descriptor : Clipping.ObjectProps.t :=
  {| Clipping.ObjectProps.type := Clipping.plane;
     Clipping.ObjectProps.invert := false;
     Clipping.ObjectProps.position := (0, 0, 0)%float;
     Clipping.ObjectProps.rotation :=
       {| Clipping.ObjectProps.axis := (1, 0, 0)%float;
          Clipping.ObjectProps.angle := 0%float |};
     Clipping.ObjectProps.scale := (1, 1, 1)%float |}.

(** A sphere, inverted, at (1,2,3), scaled by 2. *)
Definition sphere_descriptor : Clipping.ObjectProps.t :=
  {| Clipping.ObjectProps.type := Clipping.sphere;
     Clipping.ObjectProps.invert := true;
     Clipping.ObjectProps.position := (1, 2, 3)%float;
     Clipping.ObjectProps.rotation :=
       {| Clipping.ObjectProps.axis := (1, 0, 0)%float;
          Clipping.ObjectProps.angle := 0%float |};
     Clipping.ObjectProps.scale := (2, 2, 2)%float |}.

(** Six descriptors: five planes and the sphere. *)
Definition six_descriptors : Clipping.Props.t :=
  {| Clipping.Props.variant := Clipping.pixel;
     Clipping.Props.objects := replicate 5 scenario_descriptor ++ [sphere_descriptor] |}.

(** Two arrays hold the same in every slot below [n]. *)
Definition agree_below {A} (n : nat) (a b : array A) : Prop :=
  forall k, (k < n)%nat -> array_get a k = array_get b k.

(** Two arrays hold the same in every slot from [n] on. *)
Definition agree_from {A} (n : nat) (a b : array A) : Prop :=
  forall k, (n <= k)%nat -> array_get a k = array_get b k.

(** Two [Objects] hold the same in their first [n] rows. *)
Definition rows_agree (n : nat) (o o' : Clipping.Objects.t) : Prop :=
  agree_below n (Clipping.Objects.type o) (Clipping.Objects.type o')
  /\ agree_below n (Clipping.Objects.invert o) (Clipping.Objects.invert o')
  /\ agree_below (n * 3) (Clipping.Objects.position o) (Clipping.Objects.position o')
  /\ agree_below (n * 4) (Clipping.Objects.rotation o) (Clipping.Objects.rotation o')
  /\ agree_below (n * 3) (Clipping.Objects.scale o) (Clipping.Objects.scale o').

(** An aggregate made of layers and a compiled clip. *)
Definition withClip `{Substrate} (ls : list Clipping.Layer) (clip : Clipping.Clip.t)
    : Clipping.Clipping :=
  {| Clipping.layers := ls;
     Clipping.variant := Clipping.Clip.variant clip;
     Clipping.objects := Clipping.Clip.objects clip |}.

Section LayerVocabulary.

Import Clipping.
Context `{Substrate}.

(** Two layers that [areEqual] takes for equal: the same [groups] and
    loci-equal selections. *)
Definition layer_equal (a b : Layer) : Prop :=
  groups a = groups b /\ Loci_areEqual (loci a) (loci b) = true.

(** An aggregate with its layers in the opposite order. *)
Definition reverseLayers (c : Clipping) : Clipping :=
  {| layers := rev (layers c); variant := variant c; objects := objects c |}.

(** Two aggregates with the same layers, variant and count whose objects
    hold the same in the rows below count. *)
Definition same_active (c c' : Clipping) : Prop :=
  layers c' = layers c
  /\ variant c' = variant c
  /\ Objects.count (objects c') = Objects.count (objects c)
  /\ rows_agree (Objects.count (objects c)) (objects c) (objects c').

Context `{!SetLaws}.

(** The element set of a layer. *)
Definition layer_elements (layer : Layer) : gset Element :=
  Loci_elements (loci layer).

(** The groups of the last layer of [ls] that contains [e], if any: the
    key that wins [e]. *)
Fixpoint winner (ls : list Layer) (e : Element) : option Z :=
  match ls with
  | [] => Datatypes.None
  | layer :: rest =>
      match winner rest e with
      | Some g => Some g
      | Datatypes.None =>
          if decide (e ∈ layer_elements layer) then Some (groups layer)
          else Datatypes.None
      end
  end.

(** What the state of [merge]'s loop, a map and [shadowed], is after the
    layers [ls] (in their order in the aggregate) have been visited from
    the last to the first: the keys are distinct, no entry is empty, the
    entry of a key holds exactly the elements won by that key, every key
    that wins an element has an entry, and [shadowed] holds every element
    of every visited layer. *)
Record merged (ls : list Layer) (st : list (Z * Loci) * Loci) : Prop := {
  merged_keys : NoDup st.1.*1;
  merged_nonempty : forall g l, (g, l) ∈ st.1 -> Loci_elements l <> ∅;
  merged_owner : forall g l e,
    (g, l) ∈ st.1 -> e ∈ Loci_elements l <-> winner ls e = Some g;
  merged_present : forall e g, winner ls e = Some g -> g ∈ st.1.*1;
  merged_shadowed : forall e,
    e ∈ Loci_elements st.2 <-> is_Some (winner ls e);
}.

(** Layers with distinct groups and non-empty, pairwise disjoint
    selections: what [merge] returns. *)
Record separated (ls : list Layer) : Prop := {
  separated_keys : NoDup (groups <$> ls);
  separated_nonempty : forall L, L ∈ ls -> layer_elements L <> ∅;
  separated_disjoint : forall a b e,
    a ∈ ls -> b ∈ ls -> e ∈ layer_elements a -> e ∈ layer_elements b ->
    groups a = groups b;
}.

(** Two states of [merge]'s loop that cannot be told apart by the
    elements they hold: the same keys in the same order, each with the
    same elements, and the same shadowed elements. *)
Definition states_alike (st1 st2 : list (Z * Loci) * Loci) : Prop :=
  Forall2 (fun a b => a.1 = b.1 /\ Loci_elements a.2 = Loci_elements b.2) st1.1 st2.1
  /\ Loci_elements st1.2 = Loci_elements st2.2.

(** The merge exclusivity asked of every pair of layers of [ls] at once,
    of a list [outs] of output layers: whenever an earlier layer [L1] and
    a later layer [L2] have different groups and overlapping element sets,
    no layer of [outs] with the groups of [L1] holds an element of the
    overlap, and a layer of [outs] with the groups of [L2] holds all of
    [L2]. *)
Definition exclusive_for_every_pair (ls outs : list Layer) : Prop :=
  forall i j L1 L2,
    ls !! i = Some L1 -> ls !! j = Some L2 -> (i < j)%nat ->
    groups L1 <> groups L2 ->
    layer_elements L1 ∩ layer_elements L2 <> ∅ ->
    (forall out, out ∈ outs -> groups out = groups L1 ->
                 layer_elements out ## layer_elements L1 ∩ layer_elements L2)
    /\ (exists out, out ∈ outs /\ groups out = groups L2
                    /\ layer_elements L2 ⊆ layer_elements out).

End LayerVocabulary.

(* ===================================================================== *)
(** ** Executable instances of the interfaces                             *)
(* ===================================================================== *)

(** Sine and cosine by their Taylor polynomials: exact at zero, which is
    all [MathLib] asks. *)
Definition sin_poly (x : number) : number :=
  (x - x * x * x / 6 + x * x * x * x * x / 120)%float.

Definition cos_poly (x : number) : number :=
  (1 - x * x / 2 + x * x * x * x / 24)%float.

#[global] Instance poly_math : MathLib :=
  {| Math_sin := sin_poly;
     Math_cos := cos_poly;
     Math_sin_zero := eq_refl;
     Math_cos_zero := eq_refl |}.

(** Selections as lists of element ids bound to a structure; a structure
    lists its own elements and those of its root. *)
Module ListModel.

Record structure := { members : list nat; root_members : list nat }.

Record loci := { bound : structure; elems : list nat }.

Definition mem (x : nat) (l : list nat) : bool := existsb (Nat.eqb x) l.

Definition root (s : structure) : structure :=
  {| members := root_members s; root_members := root_members s |}.

Definition none (s : structure) : loci := {| bound := s; elems := [] |}.

Definition isEmpty (l : loci) : bool :=
  match elems l with [] => true | _ :: _ => false end.

Definition union (a b : loci) : loci :=
  {| bound := bound a;
     elems := elems a ++ List.filter (fun x => negb (mem x (elems a))) (elems b) |}.

Definition subtract (a b : loci) : loci :=
  {| bound := bound a;
     elems := List.filter (fun x => negb (mem x (elems b))) (elems a) |}.

Definition remap (l : loci) (s : structure) : loci :=
  {| bound := s; elems := List.filter (fun x => mem x (members s)) (elems l) |}.

Definition areEqual (a b : loci) : bool :=
  forallb (fun x => mem x (elems b)) (elems a)
  && forallb (fun x => mem x (elems a)) (elems b).

Definition fromLoci (l : loci) : list nat := elems l.

Definition toLoci (b : list nat) (s : structure) : loci :=
  {| bound := s; elems := b |}.

Definition elements (l : loci) : gset nat := list_to_set (elems l).

Lemma mem_elem_of x l : mem x l = true <-> x ∈ l.
Proof.
  unfold mem. rewrite existsb_exists. split.
  - intros (y & Hy & Heq). apply Nat.eqb_eq in Heq. subst y.
    by apply list_elem_of_In.
  - intros Hx. exists x. split; [by apply list_elem_of_In | apply Nat.eqb_refl].
Qed.

Lemma mem_false x l : mem x l = false <-> x ∉ l.
Proof.
  rewrite <- mem_elem_of. destruct (mem x l); split; congruence.
Qed.

Lemma elem_of_elements x l : x ∈ elements l <-> x ∈ elems l.
Proof. unfold elements. by rewrite elem_of_list_to_set. Qed.

Lemma elem_of_filter_mem (f : nat -> bool) x l :
  x ∈ List.filter f l <-> f x = true /\ x ∈ l.
Proof. rewrite !list_elem_of_In, filter_In. tauto. Qed.

Lemma list_elements_none s : elements (none s) = ∅.
Proof. reflexivity. Qed.

Lemma list_elements_union a b : elements (union a b) = elements a ∪ elements b.
Proof.
  apply set_eq. intros x.
  rewrite elem_of_union, !elem_of_elements. unfold union; simpl.
  rewrite elem_of_app, elem_of_filter_mem, negb_true_iff, mem_false.
  destruct (decide (x ∈ elems a)); tauto.
Qed.

Lemma list_elements_subtract a b :
  elements (subtract a b) = elements a ∖ elements b.
Proof.
  apply set_eq. intros x.
  rewrite elem_of_difference, !elem_of_elements. unfold subtract; simpl.
  rewrite elem_of_filter_mem, negb_true_iff, mem_false. tauto.
Qed.

Lemma list_isEmpty_elements a : isEmpty a = true <-> elements a = ∅.
Proof.
  unfold isEmpty, elements. destruct (elems a) as [|x l]; simpl.
  - done.
  - split; [done |]. intros Hempty.
    assert (x ∈ (∅ : gset nat)) as Hx by (rewrite <- Hempty; set_solver).
    set_solver.
Qed.

Lemma list_areEqual_elements a b :
  areEqual a b = true <-> elements a = elements b.
Proof.
  unfold areEqual. rewrite andb_true_iff, !forallb_forall. split.
  - intros [Hab Hba]. apply set_eq. intros x. rewrite !elem_of_elements.
    split; intros Hx; apply mem_elem_of; [apply Hab | apply Hba];
      by apply list_elem_of_In.
  - intros Heq. split; intros x Hx; apply mem_elem_of;
      apply list_elem_of_In in Hx; apply elem_of_elements;
      [rewrite <- Heq | rewrite Heq]; by apply elem_of_elements.
Qed.

Lemma list_bundle_elements l :
  elements (toLoci (fromLoci l) (root (bound l))) = elements l.
Proof. reflexivity. Qed.

End ListModel.

#[global] Instance list_substrate : Substrate :=
  {| Structure := ListModel.structure;
     Loci := ListModel.loci;
     Bundle := list nat;
     Script := list nat;
     Structure_root := ListModel.root;
     Loci_structure := ListModel.bound;
     Loci_none := ListModel.none;
     Loci_isEmpty := ListModel.isEmpty;
     Loci_union := ListModel.union;
     Loci_subtract := ListModel.subtract;
     Loci_remap := ListModel.remap;
     Loci_areEqual := ListModel.areEqual;
     Bundle_fromLoci := ListModel.fromLoci;
     Bundle_toLoci := ListModel.toLoci;
     Script_toLoci := fun script s => ListModel.remap (ListModel.toLoci script s) s |}.

#[global] Instance list_set_laws : SetLaws :=
  {| Element := nat;
     Loci_elements := ListModel.elements;
     elements_none := ListModel.list_elements_none;
     elements_union := ListModel.list_elements_union;
     elements_subtract := ListModel.list_elements_subtract;
     isEmpty_elements := ListModel.list_isEmpty_elements;
     areEqual_elements := ListModel.list_areEqual_elements |}.

#[global] Instance list_bundle_laws : BundleLaws :=
  {| bundle_elements := ListModel.list_bundle_elements |}.

(** *** Concrete aggregates *)

Definition demo_structure : ListModel.structure :=
  {| ListModel.members := [1; 2; 3; 4]%nat;
     ListModel.root_members := [1; 2; 3; 4; 5]%nat |}.

Definition demo_layer (es : list nat) (g : Z) : Clipping.Layer :=
  {| Clipping.loci := {| ListModel.bound := demo_structure; ListModel.elems := es |};
     Clipping.groups := g |}.

Definition demo_clipping (ls : list Clipping.Layer) : Clipping.Clipping :=
  {| Clipping.layers := ls;
     Clipping.variant := Clipping.pixel;
     Clipping.objects := Clipping.createClipObjects |}.

(** Two overlapping layers: elements 1, 2 in group One, then 2, 3 in group
    Three. *)
Definition overlapping_pair : Clipping.Clipping :=
  demo_clipping [ demo_layer [1; 2]%nat Clipping.Groups.Flag.One;
                  demo_layer [2; 3]%nat Clipping.Groups.Flag.Three ].

(** Two layers over the same elements: group One, then groups One and
    Two. *)
Definition covered_pair : Clipping.Clipping :=
  demo_clipping [ demo_layer [1; 2]%nat Clipping.Groups.Flag.One;
                  demo_layer [1; 2]%nat 3 ].

(** The overlapping pair with the elements of each layer listed in
    another order, one of them twice. *)
Definition overlapping_pair_shuffled : Clipping.Clipping :=
  demo_clipping [ demo_layer [2; 1; 2]%nat Clipping.Groups.Flag.One;
                  demo_layer [3; 2]%nat Clipping.Groups.Flag.Three ].

(** Two overlapping layers of the same group One. *)
Definition same_group_pair : Clipping.Clipping :=
  demo_clipping [ demo_layer [1; 2]%nat Clipping.Groups.Flag.One;
                  demo_layer [2; 3]%nat Clipping.Groups.Flag.One ].

(** Props with the sphere as their only descriptor. *)
Definition one_sphere : Clipping.Props.t :=
  {| Clipping.Props.variant := Clipping.pixel;
     Clipping.Props.objects := [sphere_descriptor] |}.


(** The overlapping pair followed by a third layer that takes element 2
    back into group One. *)
Definition three_layers : Clipping.Clipping :=
  demo_clipping [ demo_layer [1; 2]%nat Clipping.Groups.Flag.One;
                  demo_layer [2; 3]%nat Clipping.Groups.Flag.Three;
                  demo_layer [2]%nat Clipping.Groups.Flag.One ].

(* ===================================================================== *)
(** ** Group flags and their names                                        *)
(* ===================================================================== *)

Section GroupNames.

Import Clipping.Groups.

Example fromNames_135 : fromNames ["one"; "three"; "five"]%string = 21.
Proof. reflexivity. Qed.

Example toNames_21 : toNames 21 = ["one"; "three"; "five"]%string.
Proof. reflexivity. Qed.

Example toNames_ignores_other_bits : toNames (64 + 2) = ["two"]%string.
Proof. reflexivity. Qed.

Lemma ToInt32_small z : - 2 ^ 31 <= z < 2 ^ 31 -> ToInt32 z = z.
Proof.
  intros Hz. unfold ToInt32. rewrite Z.mod_small; lia.
Qed.

Lemma lor_below_pow2 n a b :
  0 < n -> 0 <= a < 2 ^ n -> 0 <= b < 2 ^ n -> 0 <= Z.lor a b < 2 ^ n.
Proof.
  intros Hn Ha Hb.
  assert (0 <= Z.lor a b) as Hnonneg by (apply Z.lor_nonneg; lia).
  split; [exact Hnonneg |].
  destruct (Z.eq_dec (Z.lor a b) 0) as [-> | Hne].
  - apply Z.pow_pos_nonneg; lia.
  - apply Z.log2_lt_pow2; [lia |].
    rewrite Z.log2_lor by lia.
    apply Z.max_lub_lt.
    + destruct (Z.eq_dec a 0) as [-> | ?]; [simpl; lia |].
      apply Z.log2_lt_pow2; lia.
    + destruct (Z.eq_dec b 0) as [-> | ?]; [simpl; lia |].
      apply Z.log2_lt_pow2; lia.
Qed.

Lemma js_or_small a b :
  0 <= a < 64 -> 0 <= b < 64 -> js_or a b = Z.lor a b /\ 0 <= Z.lor a b < 64.
Proof.
  intros Ha Hb. unfold js_or.
  rewrite !ToInt32_small by lia.
  split; [reflexivity |].
  change 64 with (2 ^ 6). apply lor_below_pow2; simpl; lia.
Qed.

(** What [fromName] returns, case by case. *)
Lemma fromName_cases name :
  (isDefinedName name = true /\ exists f, fromName name = Some f /\ f ∈ Names.*2)
  \/ (isDefinedName name = false /\ fromName name = Datatypes.None).
Proof.
  unfold fromName, isDefinedName.
  destruct (String.eqb_spec name "one") as [-> | H1];
    [left; split; [reflexivity | eexists; split; [reflexivity | set_solver]] |].
  destruct (String.eqb_spec name "two") as [-> | H2];
    [left; split; [reflexivity | eexists; split; [reflexivity | set_solver]] |].
  destruct (String.eqb_spec name "three") as [-> | H3];
    [left; split; [reflexivity | eexists; split; [reflexivity | set_solver]] |].
  destruct (String.eqb_spec name "four") as [-> | H4];
    [left; split; [reflexivity | eexists; split; [reflexivity | set_solver]] |].
  destruct (String.eqb_spec name "five") as [-> | H5];
    [left; split; [reflexivity | eexists; split; [reflexivity | set_solver]] |].
  destruct (String.eqb_spec name "six") as [-> | H6];
    [left; split; [reflexivity | eexists; split; [reflexivity | set_solver]] |].
  right. split; [| reflexivity].
  apply bool_decide_eq_false. simpl.
  rewrite !elem_of_cons, elem_of_nil. intuition.
Qed.

Lemma defined_flag_small f : f ∈ Names.*2 -> 0 <= f < 64.
Proof.
  simpl. rewrite !elem_of_cons, elem_of_nil.
  unfold Flag.One, Flag.Two, Flag.Three, Flag.Four, Flag.Five, Flag.Six. lia.
Qed.

(** The loop of [fromNames] skips the tokens that are not defined names. *)
Lemma fromNames_loop_skips names : forall f,
  0 <= f < 64 ->
  let step := fun f name => js_or f (int_of_value (fromName name)) in
  fold_left step names f = fold_left step (List.filter isDefinedName names) f
  /\ 0 <= fold_left step names f < 64.
Proof.
  induction names as [| name names IH]; intros f Hf step; simpl.
  - split; [reflexivity | exact Hf].
  - destruct (fromName_cases name) as [(Hdef & v & Hv & Hin) | (Hdef & Hv)];
      rewrite Hdef.
    + simpl. apply IH. subst step. simpl. rewrite Hv. simpl.
      apply defined_flag_small in Hin.
      destruct (js_or_small f v Hf Hin) as [-> ?]. assumption.
    + assert (step f name = f) as Hstep.
      { subst step. simpl. rewrite Hv. simpl.
        destruct (js_or_small f 0 Hf ltac:(lia)) as [-> _]. apply Z.lor_0_r. }
      fold step. rewrite Hstep. apply IH. exact Hf.
Qed.

(** C5, as stated, fails: the list [one; seven] holds a token that is not a
    defined name, and [fromNames] completes with the flag value 1 instead
    of failing with [InvalidArgument]. *)
Lemma fromNames_unknown_name_returns :
  isDefinedName "seven" = false
  /\ fromNames_outcome ["one"; "seven"]%string = Returns 1
  /\ fromNames_outcome ["one"; "seven"]%string <> Throws InvalidArgument.
Proof.
  split; [reflexivity |]. split; [reflexivity |]. discriminate.
Qed.

(** C5, amended: for every list of name tokens, [fromNames] completes with
    a flag value and never fails; a token that is not one of the six
    defined names contributes no bit, so the value is that of the list
    without such tokens, and it is below 64. *)
Theorem fromNames_skips_unknown_names (names : list string) :
  fromNames_outcome names
    = Returns (fromNames (List.filter isDefinedName names))
  /\ 0 <= fromNames names < 64.
Proof.
  unfold fromNames_outcome, fromNames.
  destruct (fromNames_loop_skips names Flag.None) as [Heq Hrange];
    [unfold Flag.None; lia |].
  simpl in Heq, Hrange. split; [by rewrite Heq | exact Hrange].
Qed.

Lemma combination_small fs :
  Forall (fun f => f ∈ Names.*2) fs -> 0 <= combination fs < 64.
Proof.
  induction 1 as [| f fs Hf _ IH]; simpl.
  - unfold Flag.None. lia.
  - apply defined_flag_small in Hf.
    change 64 with (2 ^ 6). apply lor_below_pow2; simpl; lia.
Qed.

Lemma filter_sublist {A} (f : A -> bool) (l : list A) :
  sublist (List.filter f l) l.
Proof.
  induction l as [| a l IH]; simpl.
  - constructor.
  - destruct (f a); by constructor.
Qed.

(** Every value below 64 is checked by running the two functions. *)
Lemma roundtrip_below_64 (n : nat) :
  (n < 64)%nat ->
  fromNames (toNames (Z.of_nat n)) = Z.of_nat n
  /\ toNames (Z.of_nat n) = namesInOrder (Z.of_nat n).
Proof.
  intros Hn.
  do 64 (destruct n as [| n]; [split; vm_compute; reflexivity |]).
  lia.
Qed.

(** C6: for every value [x] that is a bitwise OR of the six defined bits
    (the empty OR included), [fromNames (toNames x)] is [x]; and [toNames]
    lists the names of the set bits in the order of the enumeration: one,
    two, three, four, five, six. *)
Theorem groups_names_roundtrip (x : Z) :
  isCombination x ->
  fromNames (toNames x) = x
  /\ toNames x = namesInOrder x
  /\ sublist (toNames x) ["one"; "two"; "three"; "four"; "five"; "six"]%string.
Proof.
  intros (fs & Hfs & ->).
  pose proof (combination_small fs Hfs) as Hrange.
  destruct (roundtrip_below_64 (Z.to_nat (combination fs))) as [Hrt Hord];
    [lia |].
  rewrite Z2Nat.id in Hrt, Hord by lia.
  split; [exact Hrt |]. split; [exact Hord |].
  rewrite Hord. unfold namesInOrder.
  change ["one"; "two"; "three"; "four"; "five"; "six"]%string with (Names.*1).
  apply fmap_sublist, filter_sublist.
Qed.

Lemma groups_names_roundtrip_witness :
  isCombination 21
  /\ fromNames (toNames 21) = 21
  /\ toNames 21 = ["one"; "three"; "five"]%string.
Proof.
  assert (isCombination 21) as Hc.
  { exists [Flag.One; Flag.Three; Flag.Five]. split; [| reflexivity].
    repeat constructor; simpl; rewrite !elem_of_cons; tauto. }
  split; [exact Hc |].
  destruct (groups_names_roundtrip 21 Hc) as (Hrt & Hord & _).
  split; [exact Hrt | exact Hord].
Defined.

(** *** Values with other bits, lists with repeated names *)

Lemma ToInt32_mod z : ToInt32 z mod 2 ^ 32 = z mod 2 ^ 32.
Proof.
  unfold ToInt32. rewrite Zminus_mod_idemp_l. f_equal. lia.
Qed.

Lemma ToInt32_testbit z k : 0 <= k < 32 -> Z.testbit (ToInt32 z) k = Z.testbit z k.
Proof.
  intros Hk.
  rewrite <- (Z.mod_pow2_bits_low (ToInt32 z) 32 k) by lia.
  rewrite ToInt32_mod. apply Z.mod_pow2_bits_low. lia.
Qed.

Lemma land_pow2 a k :
  0 <= k -> Z.land a (2 ^ k) = if Z.testbit a k then 2 ^ k else 0.
Proof.
  intros Hk. apply Z.bits_inj'. intros n Hn.
  rewrite Z.land_spec, Z.pow2_bits_eqb by lia.
  destruct (Z.eqb_spec k n) as [-> | Hne].
  - destruct (Z.testbit a n); [by rewrite Z.pow2_bits_true | by rewrite Z.bits_0].
  - rewrite andb_false_r. destruct (Z.testbit a k); [| by rewrite Z.bits_0].
    symmetry. by apply Z.pow2_bits_false.
Qed.

(** The test of a single low bit by [is]. *)
Lemma is_testbit x k : 0 <= k < 31 -> is_ x (2 ^ k) = Z.testbit x k.
Proof.
  intros Hk. unfold is_, BitFlags.has, js_and.
  assert (0 < 2 ^ k < 2 ^ 31) as Hpow.
  { split; [apply Z.pow_pos_nonneg; lia | apply Z.pow_lt_mono_r; lia]. }
  rewrite (ToInt32_small (2 ^ k)) by lia.
  rewrite land_pow2 by lia. rewrite ToInt32_testbit by lia.
  destruct (Z.testbit x k); [| reflexivity].
  apply negb_true_iff, Z.eqb_neq. lia.
Qed.

Lemma toNames_testbits x :
  toNames x
  = (if Z.testbit x 0 then ["one"] else [])
    ++ (if Z.testbit x 1 then ["two"] else [])
    ++ (if Z.testbit x 2 then ["three"] else [])
    ++ (if Z.testbit x 3 then ["four"] else [])
    ++ (if Z.testbit x 4 then ["five"] else [])
    ++ (if Z.testbit x 5 then ["six"] else [])%string.
Proof.
  unfold toNames.
  change Flag.One with (2 ^ 0). change Flag.Two with (2 ^ 1).
  change Flag.Three with (2 ^ 2). change Flag.Four with (2 ^ 3).
  change Flag.Five with (2 ^ 4). change Flag.Six with (2 ^ 5).
  rewrite !is_testbit by lia.
  by destruct (Z.testbit x 0), (Z.testbit x 1), (Z.testbit x 2),
       (Z.testbit x 3), (Z.testbit x 4), (Z.testbit x 5).
Qed.

(** [toNames] reads the six defined bits and nothing else: for every
    integer [x], whatever other bits it has, [toNames x] is [toNames] of
    its six low bits, and [fromNames] gives these six bits back. *)
Theorem toNames_reads_six_bits (x : Z) :
  toNames x = toNames (Z.land x 63)
  /\ fromNames (toNames x) = Z.land x 63.
Proof.
  assert (toNames x = toNames (Z.land x 63)) as Hlow.
  { rewrite (toNames_testbits x), (toNames_testbits (Z.land x 63)).
    rewrite !Z.land_spec. change 63 with (Z.ones 6).
    rewrite !Z.ones_spec_low by lia. by rewrite !andb_true_r. }
  split; [exact Hlow |]. rewrite Hlow.
  assert (0 <= Z.land x 63 < 64) as Hrange.
  { change 63 with (Z.ones 6). rewrite Z.land_ones by lia.
    apply Z.mod_pos_bound. lia. }
  destruct (roundtrip_below_64 (Z.to_nat (Z.land x 63))) as [Hrt _]; [lia |].
  by rewrite Z2Nat.id in Hrt by lia.
Qed.

Lemma present_cons names a name :
  present (a :: names) name = (name =? a)%string || present names name.
Proof. reflexivity. Qed.

Lemma js_or_mask_0 b1 b2 b3 b4 b5 b6 :
  js_or (mask b1 b2 b3 b4 b5 b6) 0 = mask b1 b2 b3 b4 b5 b6.
Proof. by destruct b1, b2, b3, b4, b5, b6. Qed.

(** The loop of [fromNames] only ever turns bits on: from a value with
    some of the six bits set it reaches the value that has, besides, the
    bits of the names in the list. *)
Lemma fromNames_loop_mask names : forall b1 b2 b3 b4 b5 b6,
  fold_left (fun f name => js_or f (int_of_value (fromName name))) names
            (mask b1 b2 b3 b4 b5 b6)
  = mask (b1 || present names "one") (b2 || present names "two")
         (b3 || present names "three") (b4 || present names "four")
         (b5 || present names "five") (b6 || present names "six").
Proof.
  induction names as [| name names IH]; intros b1 b2 b3 b4 b5 b6.
  - simpl. by rewrite !orb_false_r.
  - cbn [fold_left]. rewrite !present_cons. unfold fromName.
    destruct (String.eqb_spec name "one") as [-> | H1].
    { replace (js_or (mask b1 b2 b3 b4 b5 b6) (int_of_value (Some Flag.One)))
        with (mask true b2 b3 b4 b5 b6) by (by destruct b1, b2, b3, b4, b5, b6).
      rewrite IH. simpl. by rewrite !orb_true_r. }
    destruct (String.eqb_spec name "two") as [-> | H2].
    { replace (js_or (mask b1 b2 b3 b4 b5 b6) (int_of_value (Some Flag.Two)))
        with (mask b1 true b3 b4 b5 b6) by (by destruct b1, b2, b3, b4, b5, b6).
      rewrite IH. simpl. by rewrite !orb_true_r. }
    destruct (String.eqb_spec name "three") as [-> | H3].
    { replace (js_or (mask b1 b2 b3 b4 b5 b6) (int_of_value (Some Flag.Three)))
        with (mask b1 b2 true b4 b5 b6) by (by destruct b1, b2, b3, b4, b5, b6).
      rewrite IH. simpl. by rewrite !orb_true_r. }
    destruct (String.eqb_spec name "four") as [-> | H4].
    { replace (js_or (mask b1 b2 b3 b4 b5 b6) (int_of_value (Some Flag.Four)))
        with (mask b1 b2 b3 true b5 b6) by (by destruct b1, b2, b3, b4, b5, b6).
      rewrite IH. simpl. by rewrite !orb_true_r. }
    destruct (String.eqb_spec name "five") as [-> | H5].
    { replace (js_or (mask b1 b2 b3 b4 b5 b6) (int_of_value (Some Flag.Five)))
        with (mask b1 b2 b3 b4 true b6) by (by destruct b1, b2, b3, b4, b5, b6).
      rewrite IH. simpl. by rewrite !orb_true_r. }
    destruct (String.eqb_spec name "six") as [-> | H6].
    { replace (js_or (mask b1 b2 b3 b4 b5 b6) (int_of_value (Some Flag.Six)))
        with (mask b1 b2 b3 b4 b5 true) by (by destruct b1, b2, b3, b4, b5, b6).
      rewrite IH. simpl. by rewrite !orb_true_r. }
    cbn [int_of_value default]. rewrite js_or_mask_0, IH.
    repeat match goal with
           | |- context [(?a =? name)%string] =>
               destruct (String.eqb_spec a name); [congruence |]
           end.
    reflexivity.
Qed.

(** The way back from a list of names: [toNames (fromNames names)] lists
    the defined names that occur in [names], each once and in the order of
    the enumeration, whatever the order of [names], however often a name
    is repeated and whatever other tokens the list holds. *)
Theorem toNames_fromNames (names : list string) :
  toNames (fromNames names)
  = List.filter (present names) ["one"; "two"; "three"; "four"; "five"; "six"]%string.
Proof.
  unfold fromNames.
  change Flag.None with (mask false false false false false false).
  rewrite fromNames_loop_mask. cbn [orb List.filter].
  by destruct (present names "one"), (present names "two"),
       (present names "three"), (present names "four"),
       (present names "five"), (present names "six").
Qed.

(** The switch of [fromName] and the [Names] table agree on every string,
    and [isName] accepts exactly the names [fromName] maps and the names
    the object inherits: a name that passes [isName] and is no inherited
    property name has a flag. *)
Theorem fromName_agrees_with_Names (inherited : list string) (name : string) :
  fromName name = tableFlag name
  /\ (isName inherited name = true
      <-> is_Some (fromName name) \/ name ∈ inherited).
Proof.
  assert (fromName name = tableFlag name) as Htable.
  { unfold fromName, tableFlag, Names. cbn [List.find].
    rewrite !(String.eqb_sym _ name).
    by repeat match goal with
              | |- context [(name =? ?a)%string] => destruct (name =? a)%string
              end. }
  split; [exact Htable |].
  unfold isName. rewrite bool_decide_eq_true, elem_of_app.
  destruct (fromName_cases name) as [(Hdef & f & Hf & _) | (Hdef & Hnone)].
  - apply bool_decide_eq_true in Hdef. rewrite Hf. split; [| by intros; left].
    intros _. left. by eexists.
  - apply bool_decide_eq_false in Hdef. rewrite Hnone. split.
    + intros [? | ?]; [contradiction | by right].
    + intros [[? [=]] | ?]. by right.
Qed.

End GroupNames.

(* ===================================================================== *)
(** ** The compile step                                                   *)
(* ===================================================================== *)

Section ArrayFacts.

Context {A : Type}.
Implicit Types (a : array A) (i j k offset : nat) (v : A) (vs : list A).

Lemma array_set_length a i v :
  length (array_set a i v) = Nat.max (length a) (S i).
Proof.
  unfold array_set. destruct (decide (i < length a)%nat).
  - rewrite length_insert. lia.
  - rewrite !length_app, length_replicate. simpl. lia.
Qed.

Lemma array_get_set_eq a i v : array_get (array_set a i v) i = Some v.
Proof.
  unfold array_get, array_set. destruct (decide (i < length a)%nat).
  - by rewrite list_lookup_insert_eq.
  - rewrite lookup_app_r by lia.
    rewrite lookup_app_r by (rewrite length_replicate; lia).
    rewrite length_replicate. by replace (i - length a - (i - length a))%nat with 0%nat by lia.
Qed.

Lemma array_get_set_ne a i j v :
  i <> j -> array_get (array_set a i v) j = array_get a j.
Proof.
  intros Hne. unfold array_get, array_set.
  destruct (decide (i < length a)%nat).
  - by rewrite list_lookup_insert_ne.
  - destruct (decide (j < length a)%nat).
    + by rewrite lookup_app_l.
    + rewrite (lookup_ge_None_2 a j) by lia.
      rewrite lookup_app_r by lia.
      destruct (decide (j - length a < i - length a)%nat).
      * rewrite lookup_app_l by (rewrite length_replicate; lia).
        by rewrite lookup_replicate_2.
      * rewrite lookup_app_r by (rewrite length_replicate; lia).
        rewrite length_replicate.
        rewrite lookup_ge_None_2; [done | simpl; lia].
Qed.

Lemma array_write_length a offset vs :
  (offset <= length a)%nat ->
  length (array_write a offset vs) = Nat.max (length a) (offset + length vs).
Proof.
  revert a offset. induction vs as [| v vs IH]; intros a offset Hle; simpl.
  - lia.
  - rewrite IH; rewrite array_set_length; lia.
Qed.

Lemma array_write_get_below a offset vs k :
  (k < offset)%nat -> array_get (array_write a offset vs) k = array_get a k.
Proof.
  revert a offset. induction vs as [| v vs IH]; intros a offset Hk; simpl.
  - reflexivity.
  - rewrite IH by lia. apply array_get_set_ne. lia.
Qed.

Lemma array_write_holds a offset vs : holds_at (array_write a offset vs) offset vs.
Proof.
  revert a offset. induction vs as [| v vs IH]; intros a offset k x Hk.
  - by rewrite lookup_nil in Hk.
  - destruct k as [| k]; simpl in *.
    + inversion Hk; subst x.
      rewrite Nat.add_0_r, array_write_get_below by lia.
      apply array_get_set_eq.
    + replace (offset + S k)%nat with (S offset + k)%nat by lia.
      by apply IH.
Qed.

Lemma array_set_same a i v :
  array_get a i = Some v -> array_set a i v = a.
Proof.
  unfold array_get, array_set. intros Hget.
  destruct (a !! i) as [slot |] eqn:Hi; [subst slot | done].
  rewrite decide_True by (by eapply lookup_lt_Some).
  by apply list_insert_id.
Qed.

Lemma array_write_same a offset vs :
  holds_at a offset vs -> array_write a offset vs = a.
Proof.
  revert offset. induction vs as [| v vs IH]; intros offset Hholds; simpl.
  - reflexivity.
  - rewrite array_set_same.
    + apply IH. intros k x Hk.
      replace (S offset + k)%nat with (offset + S k)%nat by lia.
      by apply Hholds.
    + rewrite <- (Nat.add_0_r offset). by apply Hholds.
Qed.

Lemma array_write_get_above a offset vs k :
  (offset + length vs <= k)%nat ->
  array_get (array_write a offset vs) k = array_get a k.
Proof.
  revert a offset. induction vs as [| v vs IH]; intros a offset Hk; simpl in *.
  - reflexivity.
  - rewrite IH by lia. apply array_get_set_ne. lia.
Qed.

Context {P : Type} (w : nat) (vals : P -> list A).
Hypothesis vals_width : forall p, length (vals p) = w.

Lemma slots_loop_get_above (ps : list P) : forall i a k,
  ((i + length ps) * w <= k)%nat ->
  array_get (slots_loop w vals i ps a) k = array_get a k.
Proof.
  induction ps as [| p ps IH]; intros i a k Hk; simpl in *.
  - reflexivity.
  - rewrite IH by lia. apply array_write_get_above. rewrite vals_width. lia.
Qed.

Lemma slots_loop_length (ps : list P) : forall i a,
  (i * w <= length a)%nat ->
  length (slots_loop w vals i ps a) = Nat.max (length a) ((i + length ps) * w).
Proof.
  induction ps as [| p ps IH]; intros i a Hle; simpl.
  - rewrite Nat.add_0_r. lia.
  - rewrite IH; rewrite array_write_length by lia; rewrite vals_width; lia.
Qed.

Lemma slots_loop_get_below (ps : list P) : forall i a k,
  (k < i * w)%nat -> array_get (slots_loop w vals i ps a) k = array_get a k.
Proof.
  induction ps as [| p ps IH]; intros i a k Hk; simpl.
  - reflexivity.
  - rewrite IH by lia. apply array_write_get_below. lia.
Qed.

Lemma slots_loop_holds (ps : list P) : forall i a j p,
  ps !! j = Some p ->
  holds_at (slots_loop w vals i ps a) ((i + j) * w) (vals p).
Proof.
  induction ps as [| q ps IH]; intros i a j p Hj.
  - by rewrite lookup_nil in Hj.
  - destruct j as [| j]; simpl in *.
    + inversion Hj; subst q. intros k x Hk.
      assert (k < w)%nat as Hkw.
      { rewrite <- (vals_width p). by eapply lookup_lt_Some. }
      rewrite Nat.add_0_r, slots_loop_get_below by lia.
      by apply array_write_holds.
    + replace (i + S j)%nat with (S i + j)%nat by lia. by apply IH.
Qed.

Lemma slots_loop_same (ps : list P) : forall i a,
  (forall j p, ps !! j = Some p -> holds_at a ((i + j) * w) (vals p)) ->
  slots_loop w vals i ps a = a.
Proof.
  induction ps as [| p ps IH]; intros i a Hholds; simpl.
  - reflexivity.
  - rewrite array_write_same.
    + apply IH. intros j q Hq.
      replace (S i + j)%nat with (i + S j)%nat by lia. by apply Hholds.
    + rewrite <- (Nat.add_0_r i). by apply Hholds.
Qed.

(** Running the loop again over its own result changes nothing. *)
Lemma slots_loop_again (ps : list P) (a : array A) :
  slots_loop w vals 0 ps (slots_loop w vals 0 ps a) = slots_loop w vals 0 ps a.
Proof.
  apply slots_loop_same. intros j p Hp. by apply slots_loop_holds.
Qed.

(** The rows the loop writes do not depend on what the array held. *)
Lemma slots_loop_agree (ps : list P) (a b : array A) :
  agree_below (length ps * w)
    (slots_loop w vals 0 ps a) (slots_loop w vals 0 ps b).
Proof.
  intros k Hk.
  assert (w <> 0)%nat as Hw by (intros ->; lia).
  assert (k `div` w < length ps)%nat as Hj
    by (apply Nat.Div0.div_lt_upper_bound; lia).
  destruct (lookup_lt_is_Some_2 ps _ Hj) as [p Hp].
  assert (k `mod` w < length (vals p))%nat as Hr
    by (rewrite vals_width; by apply Nat.mod_upper_bound).
  destruct (lookup_lt_is_Some_2 (vals p) _ Hr) as [v Hv].
  pose proof (slots_loop_holds ps 0 a _ p Hp _ v Hv) as Ha.
  pose proof (slots_loop_holds ps 0 b _ p Hp _ v Hv) as Hb.
  replace ((0 + k `div` w) * w + k `mod` w)%nat with k in Ha, Hb
    by (rewrite (Nat.div_mod_eq k w) at 1; lia).
  by rewrite Ha, Hb.
Qed.

End ArrayFacts.

Section Compile.

Import Clipping.
Context `{MathLib}.

Lemma Vec3_toArray_write v out offset :
  Vec3.toArray v out offset = array_write out offset (vec3_slots v).
Proof.
  destruct v as [[x y] z]. simpl. by rewrite !Nat.add_1_r, Nat.add_succ_r, Nat.add_1_r.
Qed.

Lemma Quat_toArray_write q out offset :
  Quat.toArray q out offset = array_write out offset (quat_slots q).
Proof.
  destruct q as [[[x y] z] w]. simpl.
  by rewrite !Nat.add_succ_r, !Nat.add_0_r.
Qed.

(** The loop of [getClip], array by array. *)
Lemma getClip_loop_arrays ps : forall i type invert position rotation scale,
  getClip_loop i ps (type, invert, position, rotation, scale)
  = (slots_loop 1 (fun p => [Type_ (ObjectProps.type p)]) i ps type,
     slots_loop 1 (fun p => [ObjectProps.invert p]) i ps invert,
     slots_loop 3 (fun p => vec3_slots (ObjectProps.position p)) i ps position,
     slots_loop 4 (fun p => quat_slots (rotation_of p)) i ps rotation,
     slots_loop 3 (fun p => vec3_slots (ObjectProps.scale p)) i ps scale).
Proof.
  induction ps as [| p ps IH]; intros i type invert position rotation scale.
  - reflexivity.
  - cbn [getClip_loop slots_loop]. rewrite IH.
    rewrite !Vec3_toArray_write, Quat_toArray_write.
    cbn [array_write]. by rewrite Nat.mul_1_r.
Qed.

Lemma vec3_slots_length v : length (vec3_slots v) = 3%nat.
Proof. by destruct v as [[? ?] ?]. Qed.

Lemma quat_slots_length q : length (quat_slots q) = 4%nat.
Proof. by destruct q as [[[? ?] ?] ?]. Qed.

(** C4, amended: [getClip] never truncates. Compiling a list of [n]
    descriptors, into fresh arrays or into those of a supplied clip, stores
    every descriptor, also one at an index above 4, in its own row ([type]
    and [invert] at [i], [position] and [scale] from [3 i], [rotation] from
    [4 i]); [count] is [n]; and each array ends as long as it was or as
    long as the [n] rows need, whichever is more. Fresh arrays have 5, 5,
    15, 20 and 15 slots, so they keep their capacity exactly when [n] is at
    most 5 and grow otherwise. *)
Theorem getClip_stores_every_descriptor (props : Props.t) (clip : option Clip.t) :
  let start := objects_or_fresh clip in
  let o := Clip.objects (getClip props clip) in
  let n := length (Props.objects props) in
  Objects.count o = n
  /\ length (Objects.type o) = Nat.max (length (Objects.type start)) n
  /\ length (Objects.invert o) = Nat.max (length (Objects.invert start)) n
  /\ length (Objects.position o) = Nat.max (length (Objects.position start)) (n * 3)
  /\ length (Objects.rotation o) = Nat.max (length (Objects.rotation start)) (n * 4)
  /\ length (Objects.scale o) = Nat.max (length (Objects.scale start)) (n * 3)
  /\ (forall i p, Props.objects props !! i = Some p -> stored_at o i p)
  /\ (length (Objects.type createClipObjects) = 5
      /\ length (Objects.invert createClipObjects) = 5
      /\ length (Objects.position createClipObjects) = 15
      /\ length (Objects.rotation createClipObjects) = 20
      /\ length (Objects.scale createClipObjects) = 15)%nat.
Proof.
  intros start. unfold getClip. fold start.
  destruct start as [count0 type0 invert0 position0 rotation0 scale0].
  cbn [Objects.type Objects.invert Objects.position Objects.rotation Objects.scale].
  rewrite getClip_loop_arrays.
  cbn [Clip.objects Objects.count Objects.type Objects.invert Objects.position
       Objects.rotation Objects.scale].
  split; [reflexivity |].
  split; [rewrite slots_loop_length by (simpl; auto with lia); simpl; lia |].
  split; [rewrite slots_loop_length by (simpl; auto with lia); simpl; lia |].
  split; [rewrite slots_loop_length
            by (simpl; auto using vec3_slots_length with lia); simpl; lia |].
  split; [rewrite slots_loop_length
            by (simpl; auto using quat_slots_length with lia); simpl; lia |].
  split; [rewrite slots_loop_length
            by (simpl; auto using vec3_slots_length with lia); simpl; lia |].
  split; [| by repeat split].
  intros i p Hp. unfold stored_at.
  cbn [Objects.type Objects.invert Objects.position Objects.rotation Objects.scale].
  repeat split.
  - pose proof (slots_loop_holds 1 (fun p => [Type_ (ObjectProps.type p)])
                  (fun _ => eq_refl) (Props.objects props) 0
                  type0 i p Hp 0%nat _ eq_refl) as Hget.
    simpl in Hget. by rewrite Nat.mul_1_r, Nat.add_0_r in Hget.
  - pose proof (slots_loop_holds 1 (fun p => [ObjectProps.invert p])
                  (fun _ => eq_refl) (Props.objects props) 0
                  invert0 i p Hp 0%nat _ eq_refl) as Hget.
    simpl in Hget. by rewrite Nat.mul_1_r, Nat.add_0_r in Hget.
  - apply (slots_loop_holds 3 (fun p => vec3_slots (ObjectProps.position p))
             (fun p => vec3_slots_length _) (Props.objects props) 0 _ i p Hp).
  - apply (slots_loop_holds 4 (fun p => quat_slots (rotation_of p))
             (fun p => quat_slots_length _) (Props.objects props) 0 _ i p Hp).
  - apply (slots_loop_holds 3 (fun p => vec3_slots (ObjectProps.scale p))
             (fun p => vec3_slots_length _) (Props.objects props) 0 _ i p Hp).
Qed.

(** Compiling the same descriptors again into the arrays of the result
    changes nothing: [getClip] with the reused arrays returns what it
    returned before. *)
Theorem getClip_reuse (props : Props.t) (clip : option Clip.t) :
  getClip props (Some (getClip props clip)) = getClip props clip.
Proof.
  unfold getClip at 1. cbn [objects_or_fresh].
  unfold getClip.
  destruct (objects_or_fresh clip) as [count0 type0 invert0 position0 rotation0 scale0].
  cbn [Objects.type Objects.invert Objects.position Objects.rotation Objects.scale].
  rewrite getClip_loop_arrays.
  cbn [Clip.objects Objects.type Objects.invert Objects.position
       Objects.rotation Objects.scale].
  rewrite getClip_loop_arrays.
  cbn [Clip.objects Objects.type Objects.invert Objects.position
       Objects.rotation Objects.scale].
  rewrite !slots_loop_again;
    auto using vec3_slots_length, quat_slots_length.
Qed.

(** Rows at and above [count] are never written: after compiling [n]
    descriptors every slot of row [n] and of the rows above it holds what
    it held before, be it the fill value of fresh arrays or the rows of
    an earlier, longer compile into the supplied clip. *)
Theorem getClip_keeps_higher_rows (props : Props.t) (clip : option Clip.t) :
  let start := objects_or_fresh clip in
  let o := Clip.objects (getClip props clip) in
  let n := length (Props.objects props) in
  agree_from n (Objects.type o) (Objects.type start)
  /\ agree_from n (Objects.invert o) (Objects.invert start)
  /\ agree_from (n * 3) (Objects.position o) (Objects.position start)
  /\ agree_from (n * 4) (Objects.rotation o) (Objects.rotation start)
  /\ agree_from (n * 3) (Objects.scale o) (Objects.scale start).
Proof.
  intros start. unfold getClip. fold start.
  destruct start as [count0 type0 invert0 position0 rotation0 scale0].
  cbn [Objects.type Objects.invert Objects.position Objects.rotation Objects.scale].
  rewrite getClip_loop_arrays.
  cbn [Clip.objects Objects.type Objects.invert Objects.position
       Objects.rotation Objects.scale].
  repeat split; intros k Hk; apply slots_loop_get_above;
    auto using vec3_slots_length, quat_slots_length; simpl; lia.
Qed.

Lemma getClip_count (props : Props.t) (clip : option Clip.t) :
  Objects.count (Clip.objects (getClip props clip)) = length (Props.objects props).
Proof.
  unfold getClip. by destruct (getClip_loop _ _ _) as [[[[? ?] ?] ?] ?].
Qed.

Lemma getClip_variant (props : Props.t) (clip : option Clip.t) :
  Clip.variant (getClip props clip) = Props.variant props.
Proof.
  unfold getClip. by destruct (getClip_loop _ _ _) as [[[[? ?] ?] ?] ?].
Qed.

(** The compiled rows do not depend on the arrays compiled into. *)
Lemma getClip_rows_agree (props : Props.t) (clip clip' : option Clip.t) :
  rows_agree (length (Props.objects props))
    (Clip.objects (getClip props clip)) (Clip.objects (getClip props clip')).
Proof.
  unfold getClip.
  destruct (objects_or_fresh clip) as [count0 type0 invert0 position0 rotation0 scale0].
  destruct (objects_or_fresh clip') as [count1 type1 invert1 position1 rotation1 scale1].
  cbn [Objects.type Objects.invert Objects.position Objects.rotation Objects.scale].
  rewrite !getClip_loop_arrays. unfold rows_agree.
  cbn [Clip.objects Objects.type Objects.invert Objects.position
       Objects.rotation Objects.scale].
  repeat split.
  - rewrite <- (Nat.mul_1_r (length _)). by apply slots_loop_agree.
  - rewrite <- (Nat.mul_1_r (length _)). by apply slots_loop_agree.
  - apply slots_loop_agree. intros p. apply vec3_slots_length.
  - apply slots_loop_agree. intros p. apply quat_slots_length.
  - apply slots_loop_agree. intros p. apply vec3_slots_length.
Qed.

(** C9: compiling the one descriptor of the scenario (a plane, not
    inverted, at the origin, turned by 0 degrees about (1,0,0), scale
    (1,1,1)) into fresh arrays gives [count = 1], [type = [1,1,1,1,1]] and
    the identity quaternion (0,0,0,1) in slots 0 to 3 of [rotation]. *)
Theorem getClip_scenario (v : Variant_) :
  let o := Clip.objects
             (getClip {| Props.variant := v; Props.objects := [scenario_descriptor] |}
                      Datatypes.None) in
  Objects.count o = 1%nat
  /\ Objects.type o = [Some 1; Some 1; Some 1; Some 1; Some 1]
  /\ take 4 (Objects.rotation o) = [Some 0; Some 0; Some 0; Some 1]%float.
Proof.
  destruct H as [sin cos Hsin Hcos].
  split; [reflexivity |]. split; [reflexivity |].
  vm_compute. by rewrite Hsin, Hcos.
Qed.

End Compile.

(** C4, as stated, fails: with six descriptors and fresh arrays the sixth
    is stored in row 5, beyond the five allocated rows, and every array has
    grown past its capacity. *)
Lemma getClip_six_descriptors_grow :
  let o := Clipping.Clip.objects (Clipping.getClip six_descriptors None) in
  length (Clipping.Props.objects six_descriptors) = 6%nat
  /\ Clipping.Objects.count o = 6%nat
  /\ length (Clipping.Objects.type o) = 6%nat
  /\ length (Clipping.Objects.invert o) = 6%nat
  /\ length (Clipping.Objects.position o) = 18%nat
  /\ length (Clipping.Objects.rotation o) = 24%nat
  /\ length (Clipping.Objects.scale o) = 18%nat
  /\ array_get (Clipping.Objects.type o) 5 = Some 2
  /\ array_get (Clipping.Objects.invert o) 5 = Some true
  /\ array_get (Clipping.Objects.position o) 17 = Some 3%float.
Proof. vm_compute. repeat split. Qed.

Lemma getClip_stores_every_descriptor_witness :
  stored_at (Clipping.Clip.objects (Clipping.getClip six_descriptors None)) 5
    sphere_descriptor.
Proof.
  apply (getClip_stores_every_descriptor six_descriptors None). reflexivity.
Defined.

Lemma getClip_scenario_witness :
  let o := Clipping.Clip.objects
             (Clipping.getClip
                {| Clipping.Props.variant := Clipping.instance;
                   Clipping.Props.objects := [scenario_descriptor] |} None) in
  Clipping.Objects.count o = 1%nat
  /\ Clipping.Objects.type o = [Some 1; Some 1; Some 1; Some 1; Some 1]
  /\ take 4 (Clipping.Objects.rotation o) = [Some 0; Some 0; Some 0; Some 1]%float.
Proof. exact (getClip_scenario Clipping.instance). Defined.

(* ===================================================================== *)
(** ** Compiling through shared arrays                                    *)
(* ===================================================================== *)

Section InPlaceFacts.

Import Clipping.
Context `{MathLib}.

Lemma read_insert_eq {A} (pool : list (array A)) (r : nat) (a : array A) :
  (r < length pool)%nat -> InPlace.read (<[r := a]> pool) r = a.
Proof. intros Hr. unfold InPlace.read. by rewrite list_lookup_insert_eq. Qed.

Lemma read_insert_ne {A} (pool : list (array A)) (r r' : nat) (a : array A) :
  r <> r' -> InPlace.read (<[r := a]> pool) r' = InPlace.read pool r'.
Proof. intros Hr. unfold InPlace.read. by rewrite list_lookup_insert_ne. Qed.

Lemma getClip_loop_cons (i : nat) (p : ObjectProps.t) (ps : list ObjectProps.t)
    (arrays : ClipArrays) :
  getClip_loop i (p :: ps) arrays = getClip_loop (S i) ps (getClip_loop i [p] arrays).
Proof. by destruct arrays as [[[[? ?] ?] ?] ?]. Qed.

Lemma same_elsewhere_refl (st : InPlace.Store) (o : InPlace.Objects.t) :
  InPlace.same_elsewhere st st o.
Proof. by repeat split. Qed.

Lemma same_elsewhere_trans (st1 st2 st3 : InPlace.Store) (o : InPlace.Objects.t) :
  InPlace.same_elsewhere st1 st2 o -> InPlace.same_elsewhere st2 st3 o ->
  InPlace.same_elsewhere st1 st3 o.
Proof.
  intros (Ht & Hf & Hn & Hts & Hfs & Hns) (Ht' & Hf' & Hn' & Hts' & Hfs' & Hns').
  repeat split; try congruence.
  - intros r Hr. by rewrite Hts', Hts.
  - intros r Hr. by rewrite Hfs', Hfs.
  - intros r Hp Hr Hs. by rewrite Hns', Hns.
Qed.

(** One turn of the loop on the store is one turn of the loop on the
    arrays the references stand for. *)
Lemma write_row_arrays (i : nat) (p : ObjectProps.t) (o : InPlace.Objects.t)
    (st : InPlace.Store) :
  InPlace.separate st o ->
  InPlace.arrays_of (InPlace.write_row i p o st) o
  = getClip_loop i [p] (InPlace.arrays_of st o)
  /\ InPlace.separate (InPlace.write_row i p o st) o
  /\ InPlace.same_elsewhere st (InPlace.write_row i p o st) o.
Proof.
  intros (Ht & Hf & Hp & Hr & Hs & Hpr & Hps & Hrs).
  destruct st as [types flags numbers].
  unfold InPlace.write_row, InPlace.arrays_of, InPlace.separate, InPlace.same_elsewhere.
  cbn [InPlace.type_arrays InPlace.flag_arrays InPlace.number_arrays getClip_loop] in *.
  split; [| split].
  - repeat first [ rewrite read_insert_eq by (rewrite ?length_insert; lia)
                 | rewrite read_insert_ne by lia ].
    reflexivity.
  - by rewrite !length_insert.
  - rewrite !length_insert. repeat split.
    + intros r Hne. by rewrite list_lookup_insert_ne.
    + intros r Hne. by rewrite list_lookup_insert_ne.
    + intros r Hne1 Hne2 Hne3. by rewrite !list_lookup_insert_ne.
Qed.

Lemma getClip_loop_store (ps : list ObjectProps.t) :
  forall (i : nat) (o : InPlace.Objects.t) (st : InPlace.Store),
  InPlace.separate st o ->
  InPlace.arrays_of (InPlace.getClip_loop i ps o st) o
  = getClip_loop i ps (InPlace.arrays_of st o)
  /\ InPlace.separate (InPlace.getClip_loop i ps o st) o
  /\ InPlace.same_elsewhere st (InPlace.getClip_loop i ps o st) o.
Proof.
  induction ps as [| p ps IH]; intros i o st Hsep.
  - simpl. split; [by destruct (InPlace.arrays_of st o) as [[[[? ?] ?] ?] ?] |].
    split; [done | apply same_elsewhere_refl].
  - destruct (write_row_arrays i p o st Hsep) as (Hrow & Hsep' & Hframe).
    destruct (IH (S i) o _ Hsep') as (Hloop & Hsep'' & Hframe').
    cbn [InPlace.getClip_loop]. split; [| split; [done |]].
    + by rewrite Hloop, Hrow, <- getClip_loop_cons.
    + by eapply same_elsewhere_trans.
Qed.

Lemma prefix_kept {A} (l more l' : list A) :
  length l' = length (l ++ more) ->
  (forall r, (r < length l)%nat -> l' !! r = (l ++ more) !! r) ->
  exists more', l' = l ++ more'.
Proof.
  intros Hlen Hsame. exists (drop (length l) l').
  apply list_eq. intros r. destruct (decide (r < length l)%nat) as [Hr | Hr].
  - by rewrite Hsame, !lookup_app_l.
  - rewrite lookup_app_r, lookup_drop by lia. f_equal. lia.
Qed.

(** What [getClip] does through the arrays of a clip of its caller. *)
Lemma getClip_store_supplied (props : Props.t) (clip : InPlace.Clip.t)
    (st : InPlace.Store) :
  InPlace.separate st (InPlace.Clip.objects clip) ->
  InPlace.arrays_of (InPlace.getClip props (Some clip) st).2 (InPlace.Clip.objects clip)
  = getClip_loop 0 (Props.objects props)
      (InPlace.arrays_of st (InPlace.Clip.objects clip))
  /\ InPlace.same_elsewhere st (InPlace.getClip props (Some clip) st).2
       (InPlace.Clip.objects clip).
Proof.
  intros Hsep. unfold InPlace.getClip. cbn [snd].
  destruct (getClip_loop_store (Props.objects props) 0 _ st Hsep) as (Hloop & _ & Hframe).
  by split.
Qed.

(** Compiling into the clip of the caller is done in place: the result
    refers to the arrays of the clip given, what it reads in the store
    after the call is what the value-level [getClip] returns, the clip of
    the caller reads the same rows afterwards, under its old [count], and
    no other array of the store is touched. *)
Theorem getClip_writes_in_place (props : Props.t) (clip : InPlace.Clip.t)
    (st : InPlace.Store) :
  InPlace.separate st (InPlace.Clip.objects clip) ->
  let result := (InPlace.getClip props (Some clip) st).1 in
  let st' := (InPlace.getClip props (Some clip) st).2 in
  let compiled := getClip props (Some (InPlace.deref_clip st clip)) in
  InPlace.refs (InPlace.Clip.objects result) = InPlace.refs (InPlace.Clip.objects clip)
  /\ InPlace.deref_clip st' result = compiled
  /\ InPlace.deref st' (InPlace.Clip.objects clip)
     = InPlace.recounted (InPlace.Objects.count (InPlace.Clip.objects clip))
                         (Clip.objects compiled)
  /\ InPlace.same_elsewhere st st' (InPlace.Clip.objects clip).
Proof.
  intros Hsep result st' compiled.
  destruct (getClip_store_supplied props clip st Hsep) as (Harrays & Hframe).
  subst result st' compiled. unfold InPlace.getClip in *. cbn [fst snd] in *.
  unfold InPlace.refs, InPlace.deref_clip, InPlace.deref, InPlace.recounted,
    InPlace.arrays_of, getClip in *.
  cbn [objects_or_fresh Clip.objects Clip.variant Objects.type Objects.invert
       Objects.position Objects.rotation Objects.scale
       InPlace.Clip.objects InPlace.Clip.variant InPlace.Objects.count
       InPlace.Objects.type InPlace.Objects.invert InPlace.Objects.position
       InPlace.Objects.rotation InPlace.Objects.scale] in *.
  destruct (getClip_loop 0 (Props.objects props) _) as [[[[t i] p] r] s].
  cbn [Clip.objects Clip.variant Objects.type Objects.invert Objects.position
       Objects.rotation Objects.scale].
  injection Harrays as Ht Hi Hp Hr Hs. rewrite Ht, Hi, Hp, Hr, Hs.
  split; [done |]. split; [done |]. split; [done | exact Hframe].
Qed.

(** Compiling without a clip allocates: the arrays of the result are new,
    what the result reads is what the value-level [getClip] returns, and
    every array the store held before the call, those of [Empty] among
    them, is left as it was. *)
Theorem getClip_allocates (props : Props.t) (st : InPlace.Store) :
  let result := (InPlace.getClip props None st).1 in
  let st' := (InPlace.getClip props None st).2 in
  InPlace.deref_clip st' result = getClip props None
  /\ InPlace.extends st st'
  /\ (length (InPlace.type_arrays st)
      <= InPlace.Objects.type (InPlace.Clip.objects result))%nat
  /\ (length (InPlace.flag_arrays st)
      <= InPlace.Objects.invert (InPlace.Clip.objects result))%nat
  /\ (length (InPlace.number_arrays st)
      <= InPlace.Objects.position (InPlace.Clip.objects result))%nat
  /\ (length (InPlace.number_arrays st)
      <= InPlace.Objects.rotation (InPlace.Clip.objects result))%nat
  /\ (length (InPlace.number_arrays st)
      <= InPlace.Objects.scale (InPlace.Clip.objects result))%nat
  /\ InPlace.separate st' (InPlace.Clip.objects result).
Proof.
  intros result st'. subst result st'. unfold InPlace.getClip.
  destruct (InPlace.createClipObjects st) as [o st1] eqn:Hcreate.
  unfold InPlace.createClipObjects in Hcreate. injection Hcreate as Ho Hst1.
  cbn [fst snd InPlace.Clip.objects InPlace.Objects.type InPlace.Objects.invert
       InPlace.Objects.position InPlace.Objects.rotation InPlace.Objects.scale].
  assert (InPlace.separate st1 o) as Hsep.
  { subst o st1. unfold InPlace.separate. simpl. rewrite !length_app. simpl.
    repeat split; lia. }
  destruct (getClip_loop_store (Props.objects props) 0 o st1 Hsep)
    as (Hloop & Hsep' & Ht & Hf & Hn & Hts & Hfs & Hns).
  assert (InPlace.arrays_of st1 o
          = (Objects.type createClipObjects, Objects.invert createClipObjects,
             Objects.position createClipObjects, Objects.rotation createClipObjects,
             Objects.scale createClipObjects)) as Hfresh.
  { subst o st1. unfold InPlace.arrays_of, InPlace.read. simpl.
    rewrite !lookup_app_r by lia.
    replace (S (S (length (InPlace.number_arrays st)))
             - length (InPlace.number_arrays st))%nat with 2%nat by lia.
    replace (S (length (InPlace.number_arrays st))
             - length (InPlace.number_arrays st))%nat with 1%nat by lia.
    by rewrite !Nat.sub_diag. }
  split; [| split].
  - unfold InPlace.deref_clip, InPlace.deref, getClip.
    cbn [objects_or_fresh InPlace.Clip.objects InPlace.Clip.variant
         InPlace.Objects.count InPlace.Objects.type InPlace.Objects.invert
         InPlace.Objects.position InPlace.Objects.rotation InPlace.Objects.scale].
    rewrite <- Hfresh, <- Hloop. reflexivity.
  - subst st1. cbn [InPlace.type_arrays InPlace.flag_arrays InPlace.number_arrays] in *.
    repeat split.
    + eapply prefix_kept; [exact Ht |]. intros r Hr. apply Hts. subst o. simpl. lia.
    + eapply prefix_kept; [exact Hf |]. intros r Hr. apply Hfs. subst o. simpl. lia.
    + eapply prefix_kept; [exact Hn |]. intros r Hr.
      apply Hns; subst o; simpl; lia.
  - subst o.
    cbn [InPlace.Objects.type InPlace.Objects.invert InPlace.Objects.position
         InPlace.Objects.rotation InPlace.Objects.scale].
    do 5 (split; [lia |]). exact Hsep'.
Qed.

End InPlaceFacts.

(* ===================================================================== *)
(** ** The insertion-ordered map                                          *)
(* ===================================================================== *)

Section JsMapFacts.

Context {V : Type}.
Implicit Types (m : list (Z * V)) (k g : Z) (v x : V).

Lemma map_get_Some m k v : map_get m k = Some v -> (k, v) ∈ m.
Proof.
  induction m as [| [k' v'] m IH]; simpl; [done |].
  destruct (Z.eqb_spec k' k) as [-> | Hne].
  - intros [= ->]. left.
  - intros Hget. right. by apply IH.
Qed.

Lemma map_get_None m k : map_get m k = Datatypes.None <-> k ∉ m.*1.
Proof.
  induction m as [| [k' v'] m IH]; simpl.
  - split; [intros _; apply not_elem_of_nil | done].
  - rewrite not_elem_of_cons.
    destruct (Z.eqb_spec k' k) as [-> | Hne].
    + split; [done | by intros [? _]].
    + rewrite IH. split; [intros ?; split; [congruence | done] | by intros [_ ?]].
Qed.

Lemma map_has_true m k : map_has m k = true <-> k ∈ m.*1.
Proof.
  unfold map_has. destruct (map_get m k) as [v |] eqn:Hget.
  - split; [intros _ | done].
    apply map_get_Some in Hget. by apply (list_elem_of_fmap_2 fst) in Hget.
  - apply map_get_None in Hget. split; [done | intros; contradiction].
Qed.

Lemma map_set_absent m k v :
  map_get m k = Datatypes.None -> map_set m k v = m ++ [(k, v)].
Proof.
  induction m as [| [k' v'] m IH]; simpl; [done |].
  destruct (k' =? k); [done |]. intros Hget. by rewrite IH.
Qed.

Lemma map_set_keys m k v :
  (map_set m k v).*1 = if map_has m k then m.*1 else m.*1 ++ [k].
Proof.
  induction m as [| [k' v'] m IH]; [done |].
  unfold map_has in *. cbn [map_set map_get].
  destruct (Z.eqb_spec k' k) as [-> | Hne]; [done |].
  rewrite fmap_cons, IH. by destruct (map_get m k).
Qed.

Lemma map_set_NoDup m k v : NoDup m.*1 -> NoDup (map_set m k v).*1.
Proof.
  intros Hnd. rewrite map_set_keys.
  destruct (map_has m k) eqn:Hhas; [done |].
  apply NoDup_app. split; [done |]. split; [| apply NoDup_singleton].
  intros g Hg Hg'. apply list_elem_of_singleton in Hg'. subst g.
  apply map_has_true in Hg. congruence.
Qed.

Lemma elem_of_map_set_keys m k v g :
  g ∈ (map_set m k v).*1 <-> g = k \/ g ∈ m.*1.
Proof.
  rewrite map_set_keys. destruct (map_has m k) eqn:Hhas.
  - apply map_has_true in Hhas. naive_solver.
  - rewrite elem_of_app, list_elem_of_singleton. naive_solver.
Qed.

Lemma elem_of_map_set m k v g x :
  NoDup m.*1 ->
  (g, x) ∈ map_set m k v <-> (g = k /\ x = v) \/ (g <> k /\ (g, x) ∈ m).
Proof.
  induction m as [| [k' v'] m IH]; simpl; intros Hnd.
  - rewrite list_elem_of_singleton, elem_of_nil. naive_solver.
  - apply NoDup_cons in Hnd as [Hk' Hnd].
    destruct (Z.eqb_spec k' k) as [-> | Hne].
    + rewrite !elem_of_cons. split.
      * intros [[= -> ->] | Hin]; [by left |].
        right. split; [| by right]. intros ->.
        apply Hk'. by apply (list_elem_of_fmap_2 fst) in Hin.
      * intros [[-> ->] | [Hg [[= -> ->] | Hin]]]; [by left | done | by right].
    + rewrite !elem_of_cons, IH by done. naive_solver.
Qed.

Lemma map_get_NoDup m k v : NoDup m.*1 -> (k, v) ∈ m -> map_get m k = Some v.
Proof.
  induction m as [| [k' v'] m IH]; simpl; intros Hnd Hin.
  - by apply elem_of_nil in Hin.
  - apply NoDup_cons in Hnd as [Hk' Hnd].
    apply elem_of_cons in Hin as [[= -> ->] | Hin].
    + by rewrite Z.eqb_refl.
    + destruct (Z.eqb_spec k' k) as [-> | Hne]; [| by apply IH].
      exfalso. apply Hk'. by apply (list_elem_of_fmap_2 fst) in Hin.
Qed.

End JsMapFacts.

(* ===================================================================== *)
(** ** The layer algebra: what holds for any selection library            *)
(* ===================================================================== *)

Section LayerFrame.

Import Clipping.
Context `{Substrate}.

(** A loop that pushes [g x] for the [x] that pass [keep]. *)
Lemma fold_push_filter {X Y} (keep : X -> bool) (g : X -> Y) (l : list X) :
  forall acc,
    fold_left (fun acc x => if keep x then acc ++ [g x] else acc) l acc
    = acc ++ (g <$> List.filter keep l).
Proof.
  induction l as [| x l IH]; intros acc; simpl.
  - by rewrite app_nil_r.
  - rewrite IH. destruct (keep x); simpl; [by rewrite <- app_assoc | done].
Qed.

Lemma fold_push_all {X Y} (g : X -> Y) (l : list X) :
  forall acc, fold_left (fun acc x => acc ++ [g x]) l acc = acc ++ (g <$> l).
Proof.
  induction l as [| x l IH]; intros acc; simpl.
  - by rewrite app_nil_r.
  - rewrite IH. by rewrite <- app_assoc.
Qed.

Lemma remap_layers (c : Clipping) (s : Structure) :
  layers (remap c s)
  = (fun layer => {| loci := Loci_remap (loci layer) s; groups := groups layer |})
      <$> List.filter (fun layer => negb (Loci_isEmpty (Loci_remap (loci layer) s)))
            (layers c).
Proof.
  unfold remap. simpl.
  exact (fold_push_filter
           (fun layer => negb (Loci_isEmpty (Loci_remap (loci layer) s)))
           (fun layer => {| loci := Loci_remap (loci layer) s; groups := groups layer |})
           (layers c) []).
Qed.

Lemma filter_layers (c : Clipping) (s : Structure) layer0 rest :
  layers c = layer0 :: rest ->
  let back := Loci_structure (loci layer0) in
  layers (filter c s)
  = (fun layer => {| loci := Loci_remap (Loci_remap (loci layer) s) back;
                     groups := groups layer |})
      <$> List.filter
            (fun layer => negb (Loci_isEmpty (Loci_remap (Loci_remap (loci layer) s) back)))
            (layers c).
Proof.
  intros Hc back. unfold filter. rewrite Hc.
  exact (fold_push_filter
           (fun layer => negb (Loci_isEmpty (Loci_remap (Loci_remap (loci layer) s) back)))
           (fun layer => {| loci := Loci_remap (Loci_remap (loci layer) s) back;
                            groups := groups layer |})
           (layer0 :: rest) []).
Qed.

Lemma toBundle_layers (c : Clipping) :
  Bundled.layers (toBundle c)
  = (fun layer => {| BundleLayer.bundle := Bundle_fromLoci (loci layer);
                     BundleLayer.groups := groups layer |}) <$> layers c.
Proof.
  unfold toBundle. simpl.
  exact (fold_push_all
           (fun layer => {| BundleLayer.bundle := Bundle_fromLoci (loci layer);
                            BundleLayer.groups := groups layer |})
           (layers c) []).
Qed.

Lemma ofBundle_layers (bls : list BundleLayer.t) (s : Structure) (clip : Clip.t) :
  layers (ofBundle bls s clip)
  = (fun bl => {| loci := Bundle_toLoci (BundleLayer.bundle bl) (Structure_root s);
                  groups := BundleLayer.groups bl |}) <$> bls.
Proof.
  unfold ofBundle. simpl.
  exact (fold_push_all
           (fun bl => {| loci := Bundle_toLoci (BundleLayer.bundle bl) (Structure_root s);
                         groups := BundleLayer.groups bl |})
           bls []).
Qed.

Lemma layers_equal_Forall2 (lA lB : list Layer) :
  Forall2 layer_equal lA lB -> layers_equal lA lB = true.
Proof.
  unfold layers_equal.
  induction 1 as [| a b lA lB [Hg Hl] _ IH]; simpl; [done |].
  rewrite Hg, Z.eqb_refl, Hl. exact IH.
Qed.

Lemma Forall_push_filter {X} (keep : X -> bool) (g : X -> Layer) (l : list X) :
  (forall x, keep x = true -> Loci_isEmpty (loci (g x)) = false) ->
  Forall (fun layer => Loci_isEmpty (loci layer) = false) (g <$> List.filter keep l).
Proof.
  intros Hkeep. apply Forall_fmap, Forall_forall. intros x Hx.
  apply list_elem_of_In, filter_In in Hx as [_ Hx]. by apply Hkeep.
Qed.

Lemma groups_of_map (m : list (Z * Loci)) :
  groups <$> ((fun '(g, l) => {| loci := l; groups := g |}) <$> m) = m.*1.
Proof.
  rewrite <- list_fmap_compose. apply list_fmap_ext. by intros _ [g l] _.
Qed.

Lemma elem_of_map_layers (m : list (Z * Loci)) (out : Layer) :
  out ∈ (fun '(g, l) => {| loci := l; groups := g |}) <$> m
  <-> (groups out, loci out) ∈ m.
Proof.
  rewrite list_elem_of_fmap. split.
  - intros ([g l] & -> & Hin). exact Hin.
  - intros Hin. exists (groups out, loci out). split; [by destruct out | done].
Qed.

Lemma merge_no_layers (c : Clipping) : layers c = [] -> merge c = c.
Proof. intros Hc. unfold merge. by rewrite Hc. Qed.

(** The layers [merge] returns for an aggregate that has some. *)
Lemma merge_layers (c : Clipping) layer0 rest :
  layers c = layer0 :: rest ->
  exists m sh,
    fold_left merge_step (rev (layers c))
      ([], Loci_none (Loci_structure (loci layer0))) = (m, sh)
    /\ layers (merge c) = (fun '(g, l) => {| loci := l; groups := g |}) <$> m.
Proof.
  intros Hc. unfold merge. rewrite Hc. rewrite <- Hc.
  destruct (fold_left merge_step (rev (layers c))
              ([], Loci_none (Loci_structure (loci layer0)))) as [m sh].
  by exists m, sh.
Qed.

Lemma Variant_eqb_refl v : Variant_eqb v v = true.
Proof. by destruct v. Qed.

Lemma rev_reverse {X} (l : list X) : rev l = reverse l.
Proof. unfold reverse. apply rev_alt. Qed.

Lemma layer_algebra_frame_merge (c : Clipping) :
  variant (merge c) = variant c /\ objects (merge c) = objects c.
Proof.
  unfold merge. destruct (layers c) as [| layer0 rest]; [by split |].
  by destruct (fold_left merge_step _ _).
Qed.

(** C10: [remap], [merge] and [filter] return an aggregate with the
    variant and the objects of their input; only the layers change. *)
Theorem layer_algebra_frame (c : Clipping) (s : Structure) :
  (variant (remap c s) = variant c /\ objects (remap c s) = objects c)
  /\ (variant (merge c) = variant c /\ objects (merge c) = objects c)
  /\ (variant (filter c s) = variant c /\ objects (filter c s) = objects c).
Proof.
  split; [by split |]. split; [apply layer_algebra_frame_merge |].
  unfold filter. by destruct (layers c).
Qed.

Lemma ofScript_layers (sls : list ScriptLayer.t) (s : Structure) (clip : Clip.t) :
  layers (ofScript sls s clip)
  = (fun sl => {| loci := Script_toLoci (ScriptLayer.script sl) s;
                  groups := ScriptLayer.groups sl |})
      <$> List.filter
            (fun sl => negb (Loci_isEmpty (Script_toLoci (ScriptLayer.script sl) s)))
            sls.
Proof.
  unfold ofScript. simpl.
  exact (fold_push_filter
           (fun sl => negb (Loci_isEmpty (Script_toLoci (ScriptLayer.script sl) s)))
           (fun sl => {| loci := Script_toLoci (ScriptLayer.script sl) s;
                         groups := ScriptLayer.groups sl |})
           sls []).
Qed.

Lemma sublist_filter_bool {X} (f : X -> bool) (l : list X) :
  sublist (List.filter f l) l.
Proof.
  induction l as [| a l IH]; simpl; [constructor |].
  destruct (f a); by constructor.
Qed.

(** The groups of the layers pushed for the entries that pass [keep] are
    a sublist of the groups of all entries. *)
Lemma groups_push_filter {X} (keep : X -> bool) (g : X -> Layer)
    (key : X -> Z) (l : list X) :
  (forall x, groups (g x) = key x) ->
  sublist (groups <$> (g <$> List.filter keep l)) (key <$> l).
Proof.
  intros Hkey. rewrite <- list_fmap_compose.
  rewrite (list_fmap_ext (groups ∘ g) key (List.filter keep l))
    by (intros _ x _; apply Hkey).
  apply fmap_sublist, sublist_filter_bool.
Qed.

Lemma filter_keep_all {X} (keep : X -> bool) (l : list X) :
  Forall (fun x => keep x = true) l -> List.filter keep l = l.
Proof.
  induction 1 as [| x l Hx _ IH]; simpl; [done |]. by rewrite Hx, IH.
Qed.

(** [ofScript] keeps exactly the script layers whose script selects
    something in the structure, in their order, each with the selection
    of its script and its own groups, and drops the others. So no layer
    of the result is empty, the groups of the result are a sublist of the
    groups given, the variant and the objects are those of the clip, the
    result has no layer when every script selects nothing, and one layer
    for each script layer when every script selects something. *)
Theorem ofScript_drops_empty (sls : list ScriptLayer.t) (s : Structure)
    (clip : Clip.t) :
  layers (ofScript sls s clip)
  = (fun sl => {| loci := Script_toLoci (ScriptLayer.script sl) s;
                  groups := ScriptLayer.groups sl |})
      <$> List.filter
            (fun sl => negb (Loci_isEmpty (Script_toLoci (ScriptLayer.script sl) s)))
            sls
  /\ Forall (fun layer => Loci_isEmpty (loci layer) = false)
            (layers (ofScript sls s clip))
  /\ sublist (groups <$> layers (ofScript sls s clip)) (ScriptLayer.groups <$> sls)
  /\ (length (layers (ofScript sls s clip)) <= length sls)%nat
  /\ variant (ofScript sls s clip) = Clip.variant clip
  /\ objects (ofScript sls s clip) = Clip.objects clip
  /\ (Forall (fun sl => Loci_isEmpty (Script_toLoci (ScriptLayer.script sl) s) = true) sls
      -> isEmpty (ofScript sls s clip) = true)
  /\ (Forall (fun sl => Loci_isEmpty (Script_toLoci (ScriptLayer.script sl) s) = false) sls
      -> groups <$> layers (ofScript sls s clip) = ScriptLayer.groups <$> sls).
Proof.
  assert (sublist (groups <$> layers (ofScript sls s clip)) (ScriptLayer.groups <$> sls))
    as Hsub by (rewrite ofScript_layers; by apply groups_push_filter).
  split; [apply ofScript_layers |].
  split; [| split; [exact Hsub | split; [| split; [done | split; [done | split]]]]].
  - rewrite ofScript_layers. apply Forall_push_filter.
    intros sl Hkeep. simpl. by apply negb_true_iff.
  - apply sublist_length in Hsub. by rewrite !length_fmap in Hsub.
  - intros Hall. unfold isEmpty. rewrite ofScript_layers, length_fmap.
    apply Nat.eqb_eq. clear Hsub.
    induction Hall as [| sl sls' Hsl _ IH]; simpl; [done |].
    rewrite Hsl. simpl. exact IH.
  - intros Hall. rewrite ofScript_layers, filter_keep_all.
    + by rewrite <- list_fmap_compose.
    + eapply Forall_impl; [exact Hall |]. intros sl Hsl. simpl in Hsl. by rewrite Hsl.
Qed.

(** [remap] keeps exactly the layers whose remapped selection is not
    empty, in their order, each with its remapped selection and its own
    groups; [filter] does the same with the selection mapped to the filter
    structure and back to the structure of the first layer, and returns an
    aggregate without layers as it is. Neither changes or invents groups
    or merges layers of equal groups: the groups of the result are a
    sublist of the groups of the input, and the very list of them when no
    selection becomes empty. *)
Theorem remap_filter_keep_order (c : Clipping) (s : Structure) :
  layers (remap c s)
  = (fun layer => {| loci := Loci_remap (loci layer) s; groups := groups layer |})
      <$> List.filter (fun layer => negb (Loci_isEmpty (Loci_remap (loci layer) s)))
            (layers c)
  /\ (forall layer0 rest, layers c = layer0 :: rest ->
        layers (filter c s)
        = (fun layer =>
             {| loci := Loci_remap (Loci_remap (loci layer) s)
                                   (Loci_structure (loci layer0));
                groups := groups layer |})
            <$> List.filter
                  (fun layer =>
                     negb (Loci_isEmpty
                             (Loci_remap (Loci_remap (loci layer) s)
                                         (Loci_structure (loci layer0)))))
                  (layers c))
  /\ (layers c = [] -> filter c s = c)
  /\ (Forall (fun layer => Loci_isEmpty (Loci_remap (loci layer) s) = false) (layers c)
      -> groups <$> layers (remap c s) = groups <$> layers c)
  /\ sublist (groups <$> layers (remap c s)) (groups <$> layers c)
  /\ sublist (groups <$> layers (filter c s)) (groups <$> layers c)
  /\ (length (layers (remap c s)) <= length (layers c))%nat
  /\ (length (layers (filter c s)) <= length (layers c))%nat.
Proof.
  assert (sublist (groups <$> layers (remap c s)) (groups <$> layers c)) as Hremap
    by (rewrite remap_layers; by apply groups_push_filter).
  assert (sublist (groups <$> layers (filter c s)) (groups <$> layers c)) as Hfilter.
  { destruct (layers c) as [| layer0 rest] eqn:Hc.
    - unfold filter. by rewrite Hc, Hc.
    - rewrite (filter_layers c s layer0 rest Hc), <- Hc.
      by apply groups_push_filter. }
  split; [apply remap_layers |].
  split; [intros layer0 rest Hc; exact (filter_layers c s layer0 rest Hc) |].
  split; [intros Hc; unfold filter; by rewrite Hc |].
  split.
  { intros Hall. rewrite remap_layers, filter_keep_all.
    - by rewrite <- list_fmap_compose.
    - eapply Forall_impl; [exact Hall |]. intros layer Hl. simpl in Hl. by rewrite Hl. }
  split; [exact Hremap |]. split; [exact Hfilter |].
  apply sublist_length in Hremap, Hfilter.
  rewrite !length_fmap in Hremap, Hfilter. by split.
Qed.

End LayerFrame.

(* ===================================================================== *)
(** ** The layer algebra: what the set laws give                          *)
(* ===================================================================== *)

Section MergeLaws.

Import Clipping.
Context `{SetLaws}.

Lemma isEmpty_false (l : Loci) : Loci_isEmpty l = false <-> Loci_elements l <> ∅.
Proof.
  rewrite <- isEmpty_elements. destruct (Loci_isEmpty l); split; congruence.
Qed.

Lemma merged_init (s : Structure) : merged [] ([], Loci_none s).
Proof.
  split; simpl.
  - constructor.
  - intros g l Hin. by apply elem_of_nil in Hin.
  - intros g l e Hin. by apply elem_of_nil in Hin.
  - discriminate.
  - intros e. rewrite elements_none. split; [set_solver | by intros [? ?]].
Qed.

Lemma winner_cons layer ls e :
  winner (layer :: ls) e
  = match winner ls e with
    | Some g => Some g
    | Datatypes.None =>
        if decide (e ∈ layer_elements layer) then Some (groups layer)
        else Datatypes.None
    end.
Proof. reflexivity. Qed.

Lemma merged_step ls st layer :
  merged ls st -> merged (layer :: ls) (merge_step st layer).
Proof.
  destruct st as [m sh]. intros [Hkeys Hne Hown Hpres Hsh]. simpl in *.
  unfold merge_step.
  set (l := Loci_subtract (loci layer) sh).
  assert (forall e, e ∈ Loci_elements l
                    <-> e ∈ layer_elements layer /\ winner ls e = Datatypes.None) as Hl.
  { intros e. subst l. rewrite elements_subtract, elem_of_difference, Hsh.
    unfold layer_elements. rewrite <- eq_None_not_Some. tauto. }
  assert (forall e, e ∈ Loci_elements (Loci_union l sh)
                    <-> is_Some (winner (layer :: ls) e)) as Hsh'.
  { intros e. rewrite elements_union, elem_of_union, Hl, Hsh, winner_cons.
    destruct (winner ls e) as [g |]; [split; eauto |].
    destruct (decide (e ∈ layer_elements layer)).
    - split; [eauto | intros _; by left].
    - split; [intros [[? _] | [? ?]]; done | intros [? ?]; done]. }
  destruct (Loci_isEmpty l) eqn:Hempty; cbn [negb].
  - (* the layer is covered by the layers after it *)
    apply isEmpty_elements in Hempty.
    assert (forall e, winner (layer :: ls) e = winner ls e) as Hsame.
    { intros e. rewrite winner_cons. destruct (winner ls e) eqn:Hw; [done |].
      destruct (decide (e ∈ layer_elements layer)) as [Hin |]; [| done].
      assert (e ∈ Loci_elements l) as He by (by apply Hl).
      rewrite Hempty in He. by apply not_elem_of_empty in He. }
    split; cbn [fst snd]; try done.
    + intros g x e Hin. rewrite Hsame. by apply Hown.
    + intros e g. rewrite Hsame. apply Hpres.
  - (* the layer wins the elements of [l] *)
    apply isEmpty_false in Hempty.
    set (v := if map_has m (groups layer)
              then match map_get m (groups layer) with
                   | Some old => Loci_union l old
                   | Datatypes.None => l
                   end
              else l).
    assert (forall e, e ∈ Loci_elements v
                      <-> e ∈ Loci_elements l \/ winner ls e = Some (groups layer)) as Hv.
    { intros e. subst v. unfold map_has.
      destruct (map_get m (groups layer)) as [old |] eqn:Hget.
      - apply map_get_Some in Hget.
        rewrite elements_union, elem_of_union. by rewrite (Hown _ _ e Hget).
      - apply map_get_None in Hget. split; [by left |].
        intros [? | Hw]; [done |]. apply Hpres in Hw. contradiction. }
    split; cbn [fst snd].
    + by apply map_set_NoDup.
    + intros g x Hin. apply elem_of_map_set in Hin as [[-> ->] | [_ Hin]]; [| eauto | done].
      apply set_choose_L in Hempty as [e He].
      intros Hv0. assert (e ∈ Loci_elements v) as Hev by (apply Hv; by left).
      rewrite Hv0 in Hev. by apply not_elem_of_empty in Hev.
    + intros g x e Hin. rewrite winner_cons.
      apply elem_of_map_set in Hin as [[-> ->] | [Hg Hin]]; [| | done].
      * rewrite Hv, Hl. destruct (winner ls e) as [g' |].
        -- split; [intros [[_ ?] | ?]; done | by right].
        -- destruct (decide (e ∈ layer_elements layer)).
           ++ split; [done | intros _; by left].
           ++ split; [intros [[? _] | ?]; done | done].
      * rewrite (Hown _ _ e Hin). destruct (winner ls e) as [g' |]; [done |].
        destruct (decide (e ∈ layer_elements layer));
          split; intros Heq; try done. congruence.
    + intros e g. rewrite winner_cons, elem_of_map_set_keys.
      destruct (winner ls e) as [g' |] eqn:Hw.
      * intros [= <-]. right. by eapply Hpres.
      * destruct (decide (e ∈ layer_elements layer)); [| done].
        intros [= <-]. by left.
    + exact Hsh'.
Qed.

Lemma merge_loop_merged (ls : list Layer) (s : Structure) :
  merged ls (fold_left merge_step (rev ls) ([], Loci_none s)).
Proof.
  induction ls as [| layer ls IH]; simpl.
  - apply merged_init.
  - rewrite fold_left_app. simpl. by apply merged_step.
Qed.

(** [merge] either returns an aggregate without layers unchanged, or
    turns the final map of its loop into layers. *)
Lemma merge_cases (c : Clipping) :
  (layers c = [] /\ merge c = c)
  \/ (exists m sh,
        merged (layers c) (m, sh)
        /\ layers (merge c) = (fun '(g, l) => {| loci := l; groups := g |}) <$> m).
Proof.
  destruct (layers c) as [| layer0 rest] eqn:Hc.
  - left. split; [done | by apply merge_no_layers].
  - right. destruct (merge_layers c layer0 rest Hc) as (m & sh & Hloop & Hlayers).
    exists m, sh. split; [| exact Hlayers].
    rewrite <- Hc, <- Hloop. apply merge_loop_merged.
Qed.

Lemma winner_in_groups ls e g : winner ls e = Some g -> g ∈ groups <$> ls.
Proof.
  induction ls as [| layer ls IH]; simpl; [done |].
  destruct (winner ls e) as [g' |].
  - intros [= ->]. right. by apply IH.
  - destruct (decide (e ∈ layer_elements layer)); [| done].
    intros [= <-]. left.
Qed.

Lemma winner_None ls e :
  (forall L, L ∈ ls -> e ∉ layer_elements L) -> winner ls e = Datatypes.None.
Proof.
  induction ls as [| layer ls IH]; intros Hnot; simpl; [done |].
  rewrite IH by (intros L HL; apply Hnot; by right).
  destruct (decide (e ∈ layer_elements layer)) as [Hin |]; [| done].
  exfalso. apply (Hnot layer); [left | done].
Qed.

(** The winner of an element is the layer that contains it and has no
    layer containing it behind it. *)
Lemma winner_lookup ls : forall j L e,
  ls !! j = Some L ->
  e ∈ layer_elements L ->
  (forall k L', (j < k)%nat -> ls !! k = Some L' -> e ∉ layer_elements L') ->
  winner ls e = Some (groups L).
Proof.
  induction ls as [| layer ls IH]; intros j L e Hj He Hlater.
  - by rewrite lookup_nil in Hj.
  - simpl. destruct j as [| j]; simpl in Hj.
    + inversion Hj; subst layer.
      rewrite winner_None.
      * by rewrite decide_True.
      * intros L' HL'. apply list_elem_of_lookup in HL' as [k Hk].
        apply (Hlater (S k)); [lia | done].
    + rewrite (IH j L e Hj He); [done |].
      intros k L' Hk HL'. apply (Hlater (S k)); [lia | done].
Qed.

(** C3: no layer of the result of [remap], of [filter] or of [merge] has
    an empty selection; on an aggregate without layers [merge] returns its
    input, which has no layer at all. *)
Theorem no_empty_layer (c : Clipping) (s : Structure) :
  Forall (fun layer => Loci_isEmpty (loci layer) = false) (layers (remap c s))
  /\ Forall (fun layer => Loci_isEmpty (loci layer) = false) (layers (filter c s))
  /\ Forall (fun layer => Loci_isEmpty (loci layer) = false) (layers (merge c))
  /\ (layers c = [] -> merge c = c).
Proof.
  split; [| split; [| split]].
  - rewrite remap_layers. apply Forall_push_filter.
    intros layer Hkeep. simpl. by apply negb_true_iff.
  - destruct (layers c) as [| layer0 rest] eqn:Hc.
    + unfold filter. rewrite Hc, Hc. constructor.
    + rewrite (filter_layers c s layer0 rest Hc). apply Forall_push_filter.
      intros layer Hkeep. simpl. by apply negb_true_iff.
  - destruct (merge_cases c) as [[Hc ->] | (m & sh & Hm & ->)].
    + rewrite Hc. constructor.
    + apply Forall_forall. intros out Hout.
      apply elem_of_map_layers in Hout.
      apply isEmpty_false. by apply (merged_nonempty _ _ Hm (groups out)).
  - apply merge_no_layers.
Qed.

(** C8, amended: the output of [merge] has exactly one layer for each
    groups key that wins an element, that is, the key of the last input
    layer containing some element, and no other layer; each of these keys
    occurs in the input. A key whose layers are all empty or covered by
    later layers has no layer in the output. On an aggregate without
    layers [merge] returns its input. *)
Theorem merge_keys (c : Clipping) :
  NoDup (groups <$> layers (merge c))
  /\ (forall g, g ∈ groups <$> layers (merge c)
                <-> exists e, winner (layers c) e = Some g)
  /\ (forall g, g ∈ groups <$> layers (merge c) -> g ∈ groups <$> layers c)
  /\ (layers c = [] -> merge c = c).
Proof.
  assert (NoDup (groups <$> layers (merge c))
          /\ (forall g, g ∈ groups <$> layers (merge c)
                        <-> exists e, winner (layers c) e = Some g)) as [Hnd Hiff].
  { destruct (merge_cases c) as [[Hc ->] | (m & sh & Hm & ->)].
    - rewrite Hc. split; [constructor |].
      intros g. split; [intros Hin; by apply elem_of_nil in Hin | by intros [? ?]].
    - rewrite groups_of_map. split; [apply (merged_keys _ _ Hm) |].
      intros g. split.
      + intros Hg. apply list_elem_of_fmap in Hg as ([g' l] & -> & Hin).
        pose proof (merged_nonempty _ _ Hm _ _ Hin) as Hne.
        apply set_choose_L in Hne as [e He].
        exists e. by apply (merged_owner _ _ Hm _ _ e Hin).
      + intros [e He]. by apply (merged_present _ _ Hm e). }
  split; [exact Hnd |]. split; [exact Hiff |]. split; [| apply merge_no_layers].
  intros g Hg. apply Hiff in Hg as [e He]. by eapply winner_in_groups.
Qed.

(** A layer none of whose elements lies in a layer behind it wins all of
    its elements: no output layer of other groups holds one of them, and
    the output layer of its groups holds them all. *)
Lemma unshadowed_layer_wins (c : Clipping) (j : nat) (L2 : Layer) :
  layers c !! j = Some L2 ->
  layer_elements L2 <> ∅ ->
  (forall k L, (j < k)%nat -> layers c !! k = Some L ->
               layer_elements L ## layer_elements L2) ->
  (forall out, out ∈ layers (merge c) -> groups out <> groups L2 ->
               layer_elements out ## layer_elements L2)
  /\ (exists out, out ∈ layers (merge c) /\ groups out = groups L2
                  /\ layer_elements L2 ⊆ layer_elements out).
Proof.
  intros Hj Hnonempty Hlater.
  assert (forall e, e ∈ layer_elements L2 ->
                    winner (layers c) e = Some (groups L2)) as Hwin.
  { intros e He. apply (winner_lookup _ j L2 e Hj He).
    intros k L Hk HL HeL. by apply (Hlater k L Hk HL e). }
  destruct (merge_cases c) as [[Hc _] | (m & sh & Hm & ->)].
  { by rewrite Hc, lookup_nil in Hj. }
  split.
  - intros out Hout Hg e He He2.
    apply elem_of_map_layers in Hout.
    apply (merged_owner _ _ Hm _ _ e Hout) in He.
    rewrite (Hwin e He2) in He. congruence.
  - apply set_choose_L in Hnonempty as [e0 He0].
    pose proof (merged_present _ _ Hm e0 _ (Hwin e0 He0)) as Hkey.
    apply list_elem_of_fmap in Hkey as ([g l] & Hg & Hin). simpl in Hg. subst g.
    exists {| loci := l; groups := groups L2 |}.
    split; [by apply elem_of_map_layers |]. split; [done |].
    intros e He. unfold layer_elements. simpl.
    apply (merged_owner _ _ Hm _ _ e Hin). by apply Hwin.
Qed.

Lemma overlap_nonempty (X Y : gset Element) : X ∩ Y <> ∅ -> Y <> ∅.
Proof. set_solver. Qed.

(** The merge exclusivity of the specification for an aggregate of exactly
    two layers: when they have different groups and share an element, the
    output layer with the groups of the first holds no shared element and
    the output layer with the groups of the second holds all of the
    second. *)
Theorem merge_two_layers_exclusive (c : Clipping) (L1 L2 : Layer) :
  layers c = [L1; L2] ->
  groups L1 <> groups L2 ->
  layer_elements L1 ∩ layer_elements L2 <> ∅ ->
  (forall out, out ∈ layers (merge c) -> groups out = groups L1 ->
               layer_elements out ## layer_elements L1 ∩ layer_elements L2)
  /\ (exists out, out ∈ layers (merge c) /\ groups out = groups L2
                  /\ layer_elements L2 ⊆ layer_elements out).
Proof.
  intros Hc Hgroups Hoverlap.
  destruct (unshadowed_layer_wins c 1 L2) as [Hothers Hown].
  - by rewrite Hc.
  - by eapply overlap_nonempty.
  - intros k L Hk HL. rewrite Hc in HL.
    destruct k as [| [| k]]; [lia | lia | discriminate].
  - split; [| exact Hown].
    intros out Hout Hg e He Hboth.
    apply elem_of_intersection in Hboth as [_ He2].
    assert (layer_elements out ## layer_elements L2) as Hdisjoint
      by (apply (Hothers out Hout); congruence).
    exact (proj1 (elem_of_disjoint _ _) Hdisjoint e He He2).
Qed.

(** *** Merging twice *)

Lemma merge_separated (c : Clipping) : separated (layers (merge c)).
Proof.
  destruct (merge_cases c) as [[Hc ->] | (m & sh & Hm & ->)].
  - rewrite Hc. split.
    + constructor.
    + intros L HL. by apply elem_of_nil in HL.
    + intros a b e Ha. by apply elem_of_nil in Ha.
  - split.
    + rewrite groups_of_map. apply (merged_keys _ _ Hm).
    + intros L HL. apply elem_of_map_layers in HL.
      by apply (merged_nonempty _ _ Hm (groups L)).
    + intros a b e Ha Hb Hea Heb.
      apply elem_of_map_layers in Ha, Hb.
      apply (merged_owner _ _ Hm _ _ e Ha) in Hea.
      apply (merged_owner _ _ Hm _ _ e Hb) in Heb. congruence.
Qed.

Lemma separated_tail layer ls : separated (layer :: ls) -> separated ls.
Proof.
  intros [Hkeys Hne Hdis]. split.
  - rewrite fmap_cons in Hkeys. by apply NoDup_cons in Hkeys as [_ ?].
  - intros L HL. apply Hne. by right.
  - intros a b e Ha Hb. apply Hdis; by right.
Qed.

Lemma entries_keys (m : list (Z * Loci)) (ls : list Layer) :
  Forall2 (fun (entry : Z * Loci) L =>
             entry.1 = groups L /\ Loci_elements entry.2 = layer_elements L) m ls ->
  m.*1 = groups <$> ls.
Proof.
  induction 1 as [| entry L m' ls' [Hg _] _ IH]; [done |].
  by rewrite !fmap_cons, Hg, IH.
Qed.

(** On separated layers the loop of [merge] creates one entry per layer,
    in the order of its visits, with the elements of the layer. *)
Lemma merge_loop_separated (ls : list Layer) (s : Structure) :
  separated ls ->
  exists m sh,
    fold_left merge_step (rev ls) ([], Loci_none s) = (m, sh)
    /\ Forall2 (fun (entry : Z * Loci) L =>
                  entry.1 = groups L /\ Loci_elements entry.2 = layer_elements L)
               m (rev ls)
    /\ (forall e, e ∈ Loci_elements sh <-> exists L, L ∈ ls /\ e ∈ layer_elements L).
Proof.
  induction ls as [| layer ls IH]; intros Hsep.
  - exists [], (Loci_none s). split; [done |]. split; [constructor |].
    intros e. rewrite elements_none. split; [set_solver |].
    intros (L & HL & _). by apply elem_of_nil in HL.
  - destruct (IH (separated_tail _ _ Hsep)) as (m & sh & Hloop & Hm & Hsh).
    simpl. rewrite fold_left_app, Hloop. simpl. unfold merge_step.
    set (l := Loci_subtract (loci layer) sh).
    assert (Loci_elements l = layer_elements layer) as Hl.
    { subst l. rewrite elements_subtract. apply set_eq. intros e.
      rewrite elem_of_difference. split; [by intros [? _] |].
      intros He. split; [done |]. rewrite Hsh. intros (L & HL & HeL).
      pose proof (separated_keys _ Hsep) as Hkeys.
      rewrite fmap_cons in Hkeys. apply NoDup_cons in Hkeys as [Hfresh _].
      apply Hfresh.
      rewrite (separated_disjoint _ Hsep layer L e); [| left | by right | done | done].
      by apply list_elem_of_fmap_2. }
    assert (Loci_isEmpty l = false) as ->.
    { apply isEmpty_false. rewrite Hl. apply (separated_nonempty _ Hsep). left. }
    assert (map_get m (groups layer) = Datatypes.None) as Hget.
    { apply map_get_None.
      rewrite (entries_keys _ _ Hm).
      rewrite rev_reverse, fmap_reverse, elem_of_reverse.
      pose proof (separated_keys _ Hsep) as Hkeys.
      rewrite fmap_cons in Hkeys. by apply NoDup_cons in Hkeys as [? _]. }
    unfold map_has. rewrite Hget. simpl. rewrite (map_set_absent _ _ _ Hget).
    eexists _, _. split; [reflexivity |]. split.
    + apply Forall2_app; [exact Hm |]. by repeat constructor.
    + intros e. rewrite elements_union, elem_of_union, Hl, Hsh. split.
      * intros [He | (L & HL & He)]; [exists layer; split; [left | done] |].
        exists L. split; [by right | done].
      * intros (L & HL & He). apply elem_of_cons in HL as [-> | HL]; [by left |].
        right. by exists L.
Qed.

Lemma layers_equal_refl (ls : list Layer) : layers_equal ls ls = true.
Proof.
  apply layers_equal_Forall2, Forall_Forall2_diag, Forall_forall.
  intros L _. split; [done | by apply areEqual_elements].
Qed.

(** An aggregate compared with itself: only the primitive data can differ
    (a NaN differs from itself). *)
Lemma areEqual_self (c : Clipping) :
  areEqual c c = objects_equal (objects c) (objects c).
Proof.
  unfold areEqual.
  by rewrite !Nat.eqb_refl, layers_equal_refl, Variant_eqb_refl.
Qed.

(** The layers of [merge (merge c)] are those of [merge c] in the
    opposite order, up to loci-equality. *)
Lemma merge_merge_layers (c : Clipping) :
  Forall2 layer_equal (layers (merge (merge c))) (rev (layers (merge c))).
Proof.
  destruct (layers (merge c)) as [| layer0 rest] eqn:Hout.
  - rewrite (merge_no_layers _ Hout), Hout. constructor.
  - destruct (merge_layers _ layer0 rest Hout) as (m & sh & Hloop & ->).
    pose proof (merge_separated c) as Hsep.
    destruct (merge_loop_separated _ (Loci_structure (loci layer0)) Hsep)
      as (m' & sh' & Hloop' & Hm' & _).
    rewrite Hloop in Hloop'. inversion Hloop'; subst m' sh'.
    rewrite <- Hout. apply Forall2_fmap_l.
    eapply Forall2_impl; [exact Hm' |].
    intros [g l] L [Hg Hl]. simpl in *. split; [done |].
    by apply areEqual_elements.
Qed.

(** Aggregates with pairwise equal layers and the same variant and objects
    are as equal as the objects are to themselves. *)
Lemma areEqual_layers (cA cB : Clipping) :
  Forall2 layer_equal (layers cA) (layers cB) ->
  variant cA = variant cB ->
  objects cA = objects cB ->
  areEqual cA cB = objects_equal (objects cA) (objects cA).
Proof.
  intros Hlayers Hv Ho. unfold areEqual.
  rewrite (Forall2_length _ _ _ Hlayers), Nat.eqb_refl.
  rewrite (layers_equal_Forall2 _ _ Hlayers), Hv, Variant_eqb_refl, <- Ho.
  by rewrite Nat.eqb_refl.
Qed.

(** C2, amended: [merge (merge c)] has the layers of [merge c] in the
    opposite order: the same number of layers, and the layer at each index
    has the groups of, and a selection loci-equal to, the layer of
    [merge c] at the mirrored index; the variant and the objects are those
    of [merge c]. Under [areEqual] it therefore equals [merge c] with its
    layers reversed whenever [c] equals itself. *)
Theorem merge_twice_reverses (c : Clipping) :
  length (layers (merge (merge c))) = length (layers (merge c))
  /\ Forall2 layer_equal (layers (merge (merge c))) (rev (layers (merge c)))
  /\ variant (merge (merge c)) = variant (merge c)
  /\ objects (merge (merge c)) = objects (merge c)
  /\ areEqual (merge (merge c)) (reverseLayers (merge c)) = areEqual c c.
Proof.
  pose proof (merge_merge_layers c) as Hrev.
  destruct (layer_algebra_frame_merge (merge c)) as [Hv Ho].
  destruct (layer_algebra_frame_merge c) as [Hv' Ho'].
  split; [apply Forall2_length in Hrev; by rewrite length_rev in Hrev |].
  split; [exact Hrev |]. split; [exact Hv |]. split; [exact Ho |].
  rewrite areEqual_self, (areEqual_layers _ (reverseLayers (merge c)) Hrev Hv Ho).
  by rewrite Ho, Ho'.
Qed.

Lemma layer_equal_sym (a b : Layer) : layer_equal a b -> layer_equal b a.
Proof.
  intros [Hg Hl]. split; [done |].
  apply areEqual_elements. symmetry. by apply areEqual_elements.
Qed.

Lemma layer_equal_trans (a b c : Layer) :
  layer_equal a b -> layer_equal b c -> layer_equal a c.
Proof.
  intros [Hg Hl] [Hg' Hl']. split; [congruence |].
  apply areEqual_elements. apply areEqual_elements in Hl, Hl'. congruence.
Qed.

(** Merging is idempotent from the second pass on, up to the order of the
    layers: a third [merge] restores the order of the first, so
    [merge (merge (merge c))] has the layers of [merge c], index by index,
    and [areEqual] takes the two for equal whenever [c] equals itself. *)
Theorem merge_thrice (c : Clipping) :
  Forall2 layer_equal (layers (merge (merge (merge c)))) (layers (merge c))
  /\ areEqual (merge (merge (merge c))) (merge c) = areEqual c c.
Proof.
  assert (Forall2 layer_equal (layers (merge (merge (merge c)))) (layers (merge c)))
    as Hsame.
  { pose proof (merge_merge_layers (merge c)) as H32.
    pose proof (merge_merge_layers c) as H21.
    apply Forall2_reverse in H21.
    rewrite <- !rev_reverse, rev_involutive in H21.
    eapply Forall2_trans; [| exact H32 | exact H21].
    apply layer_equal_trans. }
  split; [exact Hsame |].
  destruct (layer_algebra_frame_merge (merge (merge c))) as [Hv3 Ho3].
  destruct (layer_algebra_frame_merge (merge c)) as [Hv2 Ho2].
  destruct (layer_algebra_frame_merge c) as [Hv1 Ho1].
  rewrite areEqual_self, (areEqual_layers _ (merge c) Hsame); [| congruence ..].
  by rewrite Ho3, Ho2, Ho1.
Qed.

(** *** Where every element goes *)

Lemma winner_None_inv ls e :
  winner ls e = Datatypes.None -> forall L, L ∈ ls -> e ∉ layer_elements L.
Proof.
  induction ls as [| layer ls IH]; intros Hw L HL.
  - by apply elem_of_nil in HL.
  - simpl in Hw. destruct (winner ls e) eqn:Hrest; [done |].
    destruct (decide (e ∈ layer_elements layer)) as [| Hnot]; [done |].
    apply elem_of_cons in HL as [-> | HL]; [exact Hnot | by apply IH].
Qed.

Lemma winner_is_Some ls e :
  is_Some (winner ls e) <-> exists L, L ∈ ls /\ e ∈ layer_elements L.
Proof.
  split.
  - intros [g Hw]. revert g Hw. induction ls as [| layer ls IH]; intros g Hw; [done |].
    simpl in Hw. destruct (winner ls e) as [g' |] eqn:Hrest.
    + destruct (IH g' eq_refl) as (L & HL & He). exists L. split; [by right | done].
    + destruct (decide (e ∈ layer_elements layer)) as [He |]; [| done].
      exists layer. split; [left | done].
  - intros (L & HL & He). destruct (winner ls e) eqn:Hw; [by eexists |].
    exfalso. by apply (winner_None_inv _ _ Hw L).
Qed.

(** The key that wins an element is the key of the layer that contains
    it and has no layer containing it behind it. *)
Lemma winner_spec ls e g :
  winner ls e = Some g
  <-> exists j L, ls !! j = Some L /\ e ∈ layer_elements L /\ groups L = g
        /\ forall k L', (j < k)%nat -> ls !! k = Some L' -> e ∉ layer_elements L'.
Proof.
  split.
  - revert g. induction ls as [| layer ls IH]; intros g Hw; [done |].
    simpl in Hw. destruct (winner ls e) as [g' |] eqn:Hrest.
    + inversion Hw; subst g'.
      destruct (IH g eq_refl) as (j & L & Hj & He & Hg & Hlater).
      exists (S j), L. repeat split; try done.
      intros [| k] L' Hk HL'; [lia |]. apply (Hlater k); [lia | done].
    + destruct (decide (e ∈ layer_elements layer)) as [He |]; [| done].
      inversion Hw; subst g. exists 0%nat, layer. repeat split; try done.
      intros [| k] L' Hk HL'; [lia |].
      apply (winner_None_inv _ _ Hrest). by eapply list_elem_of_lookup_2.
  - intros (j & L & Hj & He & <- & Hlater). by eapply winner_lookup.
Qed.

Lemma NoDup_fmap_eq {X Y} (f : X -> Y) (l : list X) (x y : X) :
  NoDup (f <$> l) -> x ∈ l -> y ∈ l -> f x = f y -> x = y.
Proof.
  induction l as [| a l IH]; intros Hnd Hx Hy Hf.
  - by apply elem_of_nil in Hx.
  - rewrite fmap_cons in Hnd. apply NoDup_cons in Hnd as [Ha Hnd].
    apply elem_of_cons in Hx as [-> | Hx]; apply elem_of_cons in Hy as [-> | Hy].
    + done.
    + exfalso. apply Ha. rewrite Hf. by apply list_elem_of_fmap_2.
    + exfalso. apply Ha. rewrite <- Hf. by apply list_elem_of_fmap_2.
    + by apply IH.
Qed.

(** What an output layer of [merge] holds, in terms of the winner. *)
Lemma merge_layer_elements (c : Clipping) (out : Layer) (e : Element) :
  out ∈ layers (merge c) ->
  e ∈ layer_elements out <-> winner (layers c) e = Some (groups out).
Proof.
  intros Hout.
  destruct (merge_cases c) as [[Hc Hsame] | (m & sh & Hm & Hlayers)].
  - rewrite Hsame, Hc in Hout. by apply elem_of_nil in Hout.
  - rewrite Hlayers in Hout. apply elem_of_map_layers in Hout.
    apply (merged_owner _ _ Hm _ _ e Hout).
Qed.

Lemma merge_winner_layer (c : Clipping) (e : Element) (g : Z) :
  winner (layers c) e = Some g ->
  exists out, out ∈ layers (merge c) /\ groups out = g /\ e ∈ layer_elements out.
Proof.
  intros Hw.
  destruct (merge_cases c) as [[Hc _] | (m & sh & Hm & Hlayers)].
  - by rewrite Hc in Hw.
  - pose proof (merged_present _ _ Hm e g Hw) as Hkey.
    apply list_elem_of_fmap in Hkey as ([g' l] & Hg & Hin). simpl in Hg. subst g'.
    exists {| loci := l; groups := g |}. rewrite Hlayers.
    split; [by apply elem_of_map_layers |]. split; [done |].
    by apply (merged_owner _ _ Hm _ _ e Hin).
Qed.



(** The last layer decides: an output layer of [merge] holds an element
    exactly when the last input layer containing the element has the
    groups of that output layer. *)
Theorem merge_last_layer_decides (c : Clipping) (out : Layer) (e : Element) :
  out ∈ layers (merge c) ->
  e ∈ layer_elements out
  <-> exists j L, layers c !! j = Some L /\ e ∈ layer_elements L
        /\ groups L = groups out
        /\ forall k L', (j < k)%nat -> layers c !! k = Some L' ->
                        e ∉ layer_elements L'.
Proof.
  intros Hout. rewrite (merge_layer_elements c out e Hout). apply winner_spec.
Qed.

(** [merge] partitions what the layers cover: an element is in some
    output layer exactly when it is in some input layer, no element is in
    two output layers, and there are no more output layers than input
    layers. *)
Theorem merge_partitions (c : Clipping) :
  (forall e, (exists out, out ∈ layers (merge c) /\ e ∈ layer_elements out)
             <-> (exists L, L ∈ layers c /\ e ∈ layer_elements L))
  /\ (forall out1 out2 e,
        out1 ∈ layers (merge c) -> out2 ∈ layers (merge c) ->
        e ∈ layer_elements out1 -> e ∈ layer_elements out2 -> out1 = out2)
  /\ (length (layers (merge c)) <= length (layers c))%nat.
Proof.
  pose proof (merge_separated c) as Hsep.
  split; [| split].
  - intros e. rewrite <- (winner_is_Some (layers c)). split.
    + intros (out & Hout & He). apply (merge_layer_elements c out e Hout) in He.
      by eexists.
    + intros [g Hw]. destruct (merge_winner_layer c e g Hw) as (out & ? & _ & ?).
      by exists out.
  - intros out1 out2 e H1 H2 He1 He2.
    apply (NoDup_fmap_eq groups (layers (merge c))); try done.
    + apply (separated_keys _ Hsep).
    + by apply (separated_disjoint _ Hsep out1 out2 e).
  - rewrite <- (length_fmap groups (layers (merge c))),
      <- (length_fmap groups (layers c)).
    apply submseteq_length, NoDup_submseteq; [apply (separated_keys _ Hsep) |].
    intros g Hg. apply list_elem_of_fmap in Hg as (out & -> & Hout).
    pose proof (separated_nonempty _ Hsep out Hout) as Hne.
    apply set_choose_L in Hne as [e He].
    apply (merge_layer_elements c out e Hout) in He.
    by eapply winner_in_groups.
Qed.

(** When [merge] leaves nothing: the result of [merge] has no layer,
    that is [isEmpty] holds of it, exactly when no layer of the input
    holds an element. An input with layers, of which [isEmpty] does not
    hold, is thus merged into one of which it does when all its
    selections are empty. *)
Theorem merge_isEmpty_iff (c : Clipping) :
  isEmpty (merge c) = true
  <-> forall L, L ∈ layers c -> layer_elements L = ∅.
Proof.
  unfold isEmpty. rewrite Nat.eqb_eq, length_zero_iff_nil. split.
  - intros Hnone L HL. apply elem_of_equiv_empty_L. intros e He.
    assert (is_Some (winner (layers c) e)) as [g Hw]
      by (apply winner_is_Some; by exists L).
    destruct (merge_winner_layer c e g Hw) as (out & Hout & _).
    rewrite Hnone in Hout. by apply elem_of_nil in Hout.
  - intros Hall. destruct (layers (merge c)) as [| out outs] eqn:Houts; [done |].
    exfalso.
    assert (out ∈ layers (merge c)) as Hout by (rewrite Houts; left).
    pose proof (separated_nonempty _ (merge_separated c) out Hout) as Hne.
    apply set_choose_L in Hne as [e He].
    apply (merge_layer_elements c out e Hout) in He.
    assert (is_Some (winner (layers c) e)) as Hsome by (by eexists).
    apply winner_is_Some in Hsome as (L & HL & HeL).
    rewrite (Hall L HL) in HeL. by apply not_elem_of_empty in HeL.
Qed.

(** Layers that share their groups collapse into one: when every layer
    has the groups [g] and some layer is not empty, [merge] returns a
    single layer, with the groups [g], that holds the elements of all the
    layers. *)
Theorem merge_collapses_same_groups (c : Clipping) (g : Z) :
  Forall (fun L => groups L = g) (layers c) ->
  (exists L, L ∈ layers c /\ layer_elements L <> ∅) ->
  exists out,
    layers (merge c) = [out]
    /\ groups out = g
    /\ forall e, e ∈ layer_elements out
                 <-> exists L, L ∈ layers c /\ e ∈ layer_elements L.
Proof.
  intros Hall (L0 & HL0 & Hne).
  assert (forall e g', winner (layers c) e = Some g' -> g' = g) as Hkey.
  { intros e g' Hw. apply winner_in_groups in Hw.
    apply list_elem_of_fmap in Hw as (L & -> & HL).
    by apply (proj1 (Forall_forall _ _) Hall). }
  apply set_choose_L in Hne as [e0 He0].
  assert (is_Some (winner (layers c) e0)) as [g0 Hw0]
    by (apply winner_is_Some; by exists L0).
  pose proof (Hkey _ _ Hw0) as ->.
  destruct (merge_winner_layer c e0 g Hw0) as (out & Hout & Hg & _).
  assert (forall out', out' ∈ layers (merge c) -> out' = out) as Honly.
  { intros out' Hout'.
    pose proof (merge_separated c) as Hsep.
    apply (NoDup_fmap_eq groups (layers (merge c))); try done.
    - apply (separated_keys _ Hsep).
    - pose proof (separated_nonempty _ Hsep out' Hout') as Hne'.
      apply set_choose_L in Hne' as [e He].
      apply (merge_layer_elements c out' e Hout') in He.
      rewrite Hg. by apply (Hkey e). }
  exists out. split; [| split; [exact Hg |]].
  - pose proof (separated_keys _ (merge_separated c)) as Hnd.
    destruct (layers (merge c)) as [| a [| b rest]] eqn:Hlayers.
    + by apply elem_of_nil in Hout.
    + f_equal. apply Honly. left.
    + exfalso. rewrite !fmap_cons in Hnd. apply NoDup_cons in Hnd as [Hab _].
      apply Hab. rewrite (Honly a), (Honly b); [left | right; left | left].
  - intros e.
    rewrite (merge_layer_elements c out e Hout), Hg, <- (winner_is_Some (layers c)).
    split; [by eexists |]. intros [g' Hw]. by rewrite (Hkey _ _ Hw) in Hw.
Qed.

(** *** The order of the output *)

Lemma merge_step_head (st : list (Z * Loci) * Loci) (layer : Layer) k v m :
  st.1 = (k, v) :: m ->
  exists v' m', (merge_step st layer).1 = (k, v') :: m'.
Proof.
  destruct st as [m0 sh]. simpl. intros ->. unfold merge_step.
  destruct (negb (Loci_isEmpty _)); [| by eexists _, _].
  cbn [fst map_set]. destruct (k =? groups layer); by eexists _, _.
Qed.

Lemma merge_loop_head (ls : list Layer) : forall st k v m,
  st.1 = (k, v) :: m ->
  exists v' m', (fold_left merge_step ls st).1 = (k, v') :: m'.
Proof.
  induction ls as [| layer ls IH]; intros st k v m Hst; simpl.
  - by eexists _, _.
  - destruct (merge_step_head st layer k v m Hst) as (v' & m' & Hstep).
    by apply (IH _ k v' m').
Qed.

(** The output of [merge] starts with the last layer: when the last input
    layer is not empty, the first output layer has its groups and holds
    all of its elements. *)
Theorem merge_starts_with_last_layer (c : Clipping) (before : list Layer)
    (last : Layer) :
  layers c = before ++ [last] ->
  layer_elements last <> ∅ ->
  exists out rest,
    layers (merge c) = out :: rest
    /\ groups out = groups last
    /\ layer_elements last ⊆ layer_elements out.
Proof.
  intros Hc Hne.
  assert (exists layer0 rest0, layers c = layer0 :: rest0) as (layer0 & rest0 & Hcons).
  { rewrite Hc. destruct before; by eexists _, _. }
  destruct (merge_layers c layer0 rest0 Hcons) as (m & sh & Hloop & Hlayers).
  rewrite Hc, rev_app_distr in Hloop. cbn [rev app fold_left] in Hloop.
  set (init := ([], Loci_none (Loci_structure (loci layer0)))) in Hloop.
  assert (exists v, (merge_step init last).1 = [(groups last, v)]) as [v Hfirst].
  { unfold merge_step, init.
    assert (Loci_isEmpty (Loci_subtract (loci last) (Loci_none (Loci_structure (loci layer0))))
            = false) as ->.
    { apply isEmpty_false. rewrite elements_subtract, elements_none.
      intros Hempty. apply Hne. unfold layer_elements.
      apply set_eq. intros e. split; [| by intros ?%not_elem_of_empty].
      intros He. rewrite <- Hempty. set_solver. }
    by eexists. }
  destruct (merge_loop_head (rev before) _ _ _ _ Hfirst) as (v' & m' & Hhead).
  rewrite Hloop in Hhead. simpl in Hhead. subst m.
  exists {| loci := v'; groups := groups last |},
         ((fun '(g, l) => {| loci := l; groups := g |}) <$> m').
  split; [by rewrite Hlayers |]. split; [done |].
  intros e He.
  apply (merge_layer_elements c _ e); [rewrite Hlayers; left |].
  cbn [groups]. apply (winner_lookup _ (length before) last e); [| done |].
  - rewrite Hc. by rewrite list_lookup_middle.
  - intros k L' Hk HL'. rewrite Hc in HL'.
    apply lookup_lt_Some in HL'. rewrite length_app in HL'. simpl in HL'. lia.
Qed.

(** *** Merging loci-equal aggregates *)

Lemma layers_equal_true (lA lB : list Layer) :
  length lA = length lB -> layers_equal lA lB = true -> Forall2 layer_equal lA lB.
Proof.
  unfold layers_equal. revert lB.
  induction lA as [| a lA IH]; intros [| b lB] Hlen Heq;
    [constructor | done | done |].
  simpl in Hlen, Heq. apply andb_prop in Heq as [Hab Hrest].
  apply andb_prop in Hab as [Hg Hl]. constructor.
  - split; [by apply Z.eqb_eq | done].
  - apply IH; [lia | done].
Qed.

Lemma isEmpty_alike (a b : Loci) :
  Loci_elements a = Loci_elements b -> Loci_isEmpty a = Loci_isEmpty b.
Proof.
  intros Hab. destruct (Loci_isEmpty b) eqn:Hb.
  - apply isEmpty_elements. rewrite Hab. by apply isEmpty_elements.
  - apply isEmpty_false. rewrite Hab. by apply isEmpty_false.
Qed.

Lemma map_get_alike (m1 m2 : list (Z * Loci)) (k : Z) :
  Forall2 (fun a b => a.1 = b.1 /\ Loci_elements a.2 = Loci_elements b.2) m1 m2 ->
  match map_get m1 k, map_get m2 k with
  | Some v1, Some v2 => Loci_elements v1 = Loci_elements v2
  | Datatypes.None, Datatypes.None => True
  | _, _ => False
  end.
Proof.
  induction 1 as [| [k1 v1] [k2 v2] m1 m2 [Hk Hv] _ IH]; simpl; [done |].
  simpl in Hk, Hv. subst k2. by destruct (k1 =? k).
Qed.

Lemma map_set_alike (m1 m2 : list (Z * Loci)) (k : Z) (v1 v2 : Loci) :
  Forall2 (fun a b => a.1 = b.1 /\ Loci_elements a.2 = Loci_elements b.2) m1 m2 ->
  Loci_elements v1 = Loci_elements v2 ->
  Forall2 (fun a b => a.1 = b.1 /\ Loci_elements a.2 = Loci_elements b.2)
          (map_set m1 k v1) (map_set m2 k v2).
Proof.
  intros Hm Hv.
  induction Hm as [| [k1 w1] [k2 w2] m1 m2 [Hk Hw] Hrest IH]; simpl.
  - by repeat constructor.
  - simpl in Hk, Hw. subst k2. destruct (k1 =? k); by repeat constructor.
Qed.

Lemma merge_step_alike st1 st2 (L1 L2 : Layer) :
  states_alike st1 st2 -> layer_equal L1 L2 ->
  states_alike (merge_step st1 L1) (merge_step st2 L2).
Proof.
  destruct st1 as [m1 sh1], st2 as [m2 sh2].
  intros [Hm Hsh] [Hg Hl]. simpl in Hm, Hsh.
  apply areEqual_elements in Hl.
  assert (Loci_elements (Loci_subtract (loci L1) sh1)
          = Loci_elements (Loci_subtract (loci L2) sh2)) as Hsub
    by (by rewrite !elements_subtract, Hl, Hsh).
  unfold merge_step. rewrite (isEmpty_alike _ _ Hsub), <- Hg.
  destruct (negb (Loci_isEmpty (Loci_subtract (loci L2) sh2))).
  - split; cbn [fst snd]; [| by rewrite !elements_union, Hsub, Hsh].
    apply map_set_alike; [done |].
    pose proof (map_get_alike m1 m2 (groups L1) Hm) as Hget. unfold map_has.
    destruct (map_get m1 (groups L1)), (map_get m2 (groups L1)); try done.
    by rewrite !elements_union, Hsub, Hget.
  - split; cbn [fst snd]; [done | by rewrite !elements_union, Hsub, Hsh].
Qed.

Lemma merge_loop_alike (ls1 ls2 : list Layer) :
  Forall2 layer_equal ls1 ls2 ->
  forall st1 st2, states_alike st1 st2 ->
  states_alike (fold_left merge_step ls1 st1) (fold_left merge_step ls2 st2).
Proof.
  induction 1 as [| L1 L2 ls1 ls2 HL _ IH]; intros st1 st2 Hst; simpl; [done |].
  apply IH. by apply merge_step_alike.
Qed.

Lemma merge_alike_layers (c1 c2 : Clipping) :
  Forall2 layer_equal (layers c1) (layers c2) ->
  Forall2 layer_equal (layers (merge c1)) (layers (merge c2)).
Proof.
  intros Hlayers.
  destruct (layers c1) as [| a1 r1] eqn:Hc1; destruct (layers c2) as [| a2 r2] eqn:Hc2;
    try by inversion Hlayers.
  - rewrite (merge_no_layers _ Hc1), (merge_no_layers _ Hc2), Hc1, Hc2. constructor.
  - destruct (merge_layers c1 a1 r1 Hc1) as (m1 & sh1 & Hloop1 & ->).
    destruct (merge_layers c2 a2 r2 Hc2) as (m2 & sh2 & Hloop2 & ->).
    assert (states_alike (m1, sh1) (m2, sh2)) as [Hm _].
    { rewrite <- Hloop1, <- Hloop2. apply merge_loop_alike.
      - rewrite Hc1, Hc2, !rev_reverse. by apply Forall2_reverse.
      - split; simpl; [constructor | by rewrite !elements_none]. }
    simpl in Hm. apply Forall2_fmap.
    eapply Forall2_impl; [exact Hm |].
    intros [g1 l1] [g2 l2] [Hg Hl]. split; [done |]. by apply areEqual_elements.
Qed.

(** [merge] respects [areEqual]: two aggregates that [areEqual] accepts
    are merged into two aggregates that [areEqual] accepts, layer for
    layer in the same order. *)
Theorem merge_respects_areEqual (c1 c2 : Clipping) :
  areEqual c1 c2 = true -> areEqual (merge c1) (merge c2) = true.
Proof.
  unfold areEqual at 1. intros Heq.
  destruct (length (layers c1) =? length (layers c2))%nat eqn:Hlen; [| done].
  destruct (layers_equal (layers c1) (layers c2)) eqn:Hlayers; [| done].
  destruct (Variant_eqb (variant c1) (variant c2)) eqn:Hv; [| done].
  destruct (Objects.count (objects c1) =? Objects.count (objects c2))%nat eqn:Hcount;
    [| done].
  cbn [negb] in Heq.
  apply Nat.eqb_eq in Hlen.
  pose proof (merge_alike_layers c1 c2 (layers_equal_true _ _ Hlen Hlayers)) as Hout.
  destruct (layer_algebra_frame_merge c1) as [Hv1 Ho1].
  destruct (layer_algebra_frame_merge c2) as [Hv2 Ho2].
  unfold areEqual.
  rewrite (Forall2_length _ _ _ Hout), Nat.eqb_refl, (layers_equal_Forall2 _ _ Hout).
  by rewrite Hv1, Hv2, Ho1, Ho2, Hv, Hcount.
Qed.

End MergeLaws.

(* ===================================================================== *)
(** ** The layer algebra: bundles                                         *)
(* ===================================================================== *)

Section Bundles.

Import Clipping.
Context `{BundleLaws}.

(** C7: serialising an aggregate with [toBundle] and reading the bundles
    back with [ofBundle] against the structure its selections are bound to
    gives as many layers as the aggregate has, in the same order, each
    with the groups of the original layer and a loci-equal selection;
    [toBundle] returns one bundle per layer and [ofBundle] one layer per
    bundle, whatever the bundle resolves to. *)
Theorem bundle_roundtrip (c : Clipping) (structure : Structure) :
  Forall (fun layer => Loci_structure (loci layer) = structure) (layers c) ->
  let back := ofBundle (Bundled.layers (toBundle c)) structure (asClip c) in
  length (layers back) = length (layers c)
  /\ Forall2 layer_equal (layers back) (layers c)
  /\ layers_equal (layers back) (layers c) = true
  /\ length (Bundled.layers (toBundle c)) = length (layers c)
  /\ (forall bundleLayers s clip,
        length (layers (ofBundle bundleLayers s clip)) = length bundleLayers).
Proof.
  intros Hbound back.
  assert (Forall2 layer_equal (layers back) (layers c)) as Heq.
  { subst back. rewrite ofBundle_layers, toBundle_layers, <- list_fmap_compose.
    apply Forall2_fmap_l, Forall_Forall2_diag.
    eapply Forall_impl; [exact Hbound |].
    intros layer Hs. split; [done |]. simpl.
    apply areEqual_elements. rewrite <- Hs. apply bundle_elements. }
  split; [by eapply Forall2_length |]. split; [exact Heq |].
  split; [by apply layers_equal_Forall2 |].
  split; [by rewrite toBundle_layers, length_fmap |].
  intros bundleLayers s clip. by rewrite ofBundle_layers, length_fmap.
Qed.

End Bundles.

(* ===================================================================== *)
(** ** Equality and the compiled rows                                     *)
(* ===================================================================== *)

Lemma forallb_agree {X} (f g : X -> bool) (l : list X) :
  (forall x, x ∈ l -> f x = g x) -> forallb f l = forallb g l.
Proof.
  induction l as [| x l IH]; intros Hfg; simpl; [done |].
  rewrite (Hfg x) by left. f_equal. apply IH. intros y Hy. apply Hfg. by right.
Qed.

Lemma slots_equal_agree (a a' b b' : array number) (m offset n : nat) :
  agree_below m a a' -> agree_below m b b' -> (offset + n <= m)%nat ->
  slots_equal a b offset n = slots_equal a' b' offset n.
Proof.
  intros Ha Hb Hm. unfold slots_equal. apply forallb_agree.
  intros k Hk. apply elem_of_seq in Hk.
  rewrite (Ha (offset + k)%nat), (Hb (offset + k)%nat) by lia. reflexivity.
Qed.

(** The second loop of [areEqual] reads the rows below [count] only. *)
Lemma objects_equal_agree (oA oA' oB oB' : Clipping.Objects.t) :
  Clipping.Objects.count oA' = Clipping.Objects.count oA ->
  rows_agree (Clipping.Objects.count oA) oA oA' ->
  rows_agree (Clipping.Objects.count oA) oB oB' ->
  Clipping.objects_equal oA' oB' = Clipping.objects_equal oA oB.
Proof.
  intros Hcount (HtA & HiA & HpA & HrA & HsA) (HtB & HiB & HpB & HrB & HsB).
  unfold Clipping.objects_equal. rewrite Hcount. apply forallb_agree.
  intros i Hi. apply elem_of_seq in Hi.
  rewrite (HtA i), (HtB i), (HiA i), (HiB i) by lia.
  rewrite (slots_equal_agree _ _ _ _ _ _ _ HpA HpB) by lia.
  rewrite (slots_equal_agree _ _ _ _ _ _ _ HsA HsB) by lia.
  rewrite (slots_equal_agree _ _ _ _ _ _ _ HrA HrB) by lia.
  reflexivity.
Qed.

Section Equality.

Import Clipping.
Context `{Substrate}.

Lemma areEqual_same_active (cA cA' cB cB' : Clipping) :
  same_active cA cA' -> same_active cB cB' ->
  areEqual cA' cB' = areEqual cA cB.
Proof.
  intros (HlA & HvA & HcA & HrA) (HlB & HvB & HcB & HrB).
  unfold areEqual. rewrite HlA, HlB, HvA, HvB, HcA, HcB.
  destruct (negb (length (layers cA) =? length (layers cB))%nat); [done |].
  destruct (negb (layers_equal (layers cA) (layers cB))); [done |].
  destruct (negb (Variant_eqb (variant cA) (variant cB))); [done |].
  destruct (Nat.eqb_spec (Objects.count (objects cA)) (Objects.count (objects cB)))
    as [Hcount | Hne]; [| done].
  cbn [negb]. apply objects_equal_agree; [done | done |].
  by rewrite Hcount.
Qed.

(** [areEqual] never reads a row at or above [count]: replacing either
    aggregate by one with the same layers, variant and count whose arrays
    hold the same in the rows below count, and anything at all from there
    on, does not change the answer. *)
Theorem areEqual_reads_active_rows (cA cA' cB cB' : Clipping) :
  same_active cA cA' -> same_active cB cB' ->
  areEqual cA' cB' = areEqual cA cB.
Proof. apply areEqual_same_active. Qed.

Context `{MathLib}.

(** Equality does not see the arrays a clip was compiled into: two
    aggregates with the same layers whose clips were compiled from the
    same props, into fresh arrays or into the arrays of whatever clips,
    compare under [areEqual] as the aggregate compiled into fresh arrays
    compares with itself. *)
Theorem areEqual_ignores_scratch (ls : list Layer) (props : Props.t)
    (clip clip' : option Clip.t) :
  areEqual (withClip ls (getClip props clip)) (withClip ls (getClip props clip'))
  = areEqual (withClip ls (getClip props Datatypes.None))
             (withClip ls (getClip props Datatypes.None)).
Proof.
  symmetry. apply areEqual_same_active; unfold same_active, withClip;
    cbn [layers variant objects];
    rewrite !getClip_variant, !getClip_count;
    (split; [done |]); (split; [done |]); (split; [done |]);
    apply getClip_rows_agree.
Qed.

End Equality.

(* ===================================================================== *)
(** ** The layer algebra on concrete aggregates                           *)
(* ===================================================================== *)

Example merge_overlapping_pair :
  Clipping.layers (Clipping.merge overlapping_pair)
  = [ demo_layer [2; 3]%nat 4; demo_layer [1]%nat 1 ].
Proof. reflexivity. Qed.

Example merge_merge_overlapping_pair :
  Clipping.layers (Clipping.merge (Clipping.merge overlapping_pair))
  = [ demo_layer [1]%nat 1; demo_layer [2; 3]%nat 4 ].
Proof. reflexivity. Qed.

Example merge_three_layers :
  Clipping.layers (Clipping.merge three_layers)
  = [ demo_layer [1; 2]%nat 1; demo_layer [3]%nat 4 ].
Proof. reflexivity. Qed.

Lemma demo_layer_elem (x : nat) (es : list nat) (g : Z) :
  x ∈ es -> x ∈ layer_elements (demo_layer es g).
Proof. intros Hx. by apply ListModel.elem_of_elements. Qed.

Lemma demo_overlap :
  layer_elements (demo_layer [1; 2]%nat 1) ∩ layer_elements (demo_layer [2; 3]%nat 4)
  <> ∅.
Proof.
  intros Hempty.
  assert (2%nat ∈ layer_elements (demo_layer [1; 2]%nat 1)
                  ∩ layer_elements (demo_layer [2; 3]%nat 4)) as Hin.
  { apply elem_of_intersection. split; apply demo_layer_elem; set_solver. }
  rewrite Hempty in Hin. by apply not_elem_of_empty in Hin.
Qed.

(** C2, as stated, fails: merging the overlapping pair twice gives the
    layers of the first merge in the opposite order, which [areEqual]
    tells apart at index 0. *)
Lemma merge_twice_not_equal :
  Clipping.areEqual (Clipping.merge (Clipping.merge overlapping_pair))
                    (Clipping.merge overlapping_pair) = false.
Proof. reflexivity. Qed.

(** C8, as stated, fails: the key One occurs in the covered pair, and the
    output of [merge] has the single key 3 (One and Two). *)
Lemma merge_drops_covered_key :
  Clipping.groups <$> Clipping.layers covered_pair = [1; 3]
  /\ Clipping.groups <$> Clipping.layers (Clipping.merge covered_pair) = [3].
Proof. split; reflexivity. Qed.

(** Why the layers behind [L2] matter: asked of every pair of layers of
    [three_layers] at once, the exclusivity contradicts itself. The pair
    of the first two layers wants element 2 in the output of group Three,
    the pair of the last two wants it out of there; no list of output
    layers does both. *)
Lemma every_pair_unsatisfiable (outs : list Clipping.Layer) :
  ~ exclusive_for_every_pair (Clipping.layers three_layers) outs.
Proof.
  intros Hex.
  destruct (Hex 0%nat 1%nat (demo_layer [1; 2]%nat 1) (demo_layer [2; 3]%nat 4))
    as [_ (out & Hout & Hg & Hall)];
    [reflexivity | reflexivity | lia | discriminate | exact demo_overlap |].
  destruct (Hex 1%nat 2%nat (demo_layer [2; 3]%nat 4) (demo_layer [2]%nat 1))
    as [Hnone _]; [reflexivity | reflexivity | lia | discriminate | |].
  - intros Hempty.
    assert (2%nat ∈ layer_elements (demo_layer [2; 3]%nat 4)
                    ∩ layer_elements (demo_layer [2]%nat 1)) as Hin
      by (apply elem_of_intersection; split; apply demo_layer_elem; set_solver).
    rewrite Hempty in Hin. by apply not_elem_of_empty in Hin.
  - apply (proj1 (elem_of_disjoint _ _) (Hnone out Hout Hg) 2%nat).
    + apply Hall, demo_layer_elem. set_solver.
    + apply elem_of_intersection. split; apply demo_layer_elem; set_solver.
Qed.


Lemma merge_twice_reverses_witness :
  Forall2 layer_equal
    (Clipping.layers (Clipping.merge (Clipping.merge overlapping_pair)))
    (rev (Clipping.layers (Clipping.merge overlapping_pair)))
  /\ Clipping.areEqual (Clipping.merge (Clipping.merge overlapping_pair))
                       (reverseLayers (Clipping.merge overlapping_pair)) = true.
Proof.
  destruct (merge_twice_reverses overlapping_pair) as (_ & Hrev & _ & _ & Heq).
  split; [exact Hrev | exact Heq].
Defined.

Lemma no_empty_layer_witness :
  Forall (fun layer => Loci_isEmpty (Clipping.loci layer) = false)
         (Clipping.layers (Clipping.merge covered_pair))
  /\ Clipping.layers (Clipping.merge covered_pair) = [ demo_layer [1; 2]%nat 3 ].
Proof.
  destruct (no_empty_layer covered_pair demo_structure) as (_ & _ & Hmerge & _).
  split; [exact Hmerge | reflexivity].
Defined.

Lemma merge_keys_witness :
  NoDup (Clipping.groups <$> Clipping.layers (Clipping.merge three_layers))
  /\ Clipping.groups <$> Clipping.layers (Clipping.merge three_layers) = [1; 4].
Proof.
  destruct (merge_keys three_layers) as (Hnd & _).
  split; [exact Hnd | reflexivity].
Defined.

Lemma layer_algebra_frame_witness :
  Clipping.variant (Clipping.merge three_layers) = Clipping.pixel
  /\ Clipping.objects (Clipping.filter three_layers demo_structure)
     = Clipping.createClipObjects.
Proof.
  destruct (layer_algebra_frame three_layers demo_structure)
    as (_ & [Hv _] & [_ Ho]).
  split; [exact Hv | exact Ho].
Defined.

Lemma bundle_roundtrip_witness :
  Forall (fun layer => Loci_structure (Clipping.loci layer) = demo_structure)
         (Clipping.layers overlapping_pair)
  /\ Forall2 layer_equal
       (Clipping.layers
          (Clipping.ofBundle (Clipping.Bundled.layers (Clipping.toBundle overlapping_pair))
                             demo_structure (Clipping.asClip overlapping_pair)))
       (Clipping.layers overlapping_pair).
Proof.
  assert (Forall (fun layer => Loci_structure (Clipping.loci layer) = demo_structure)
                 (Clipping.layers overlapping_pair)) as Hbound
    by (repeat constructor).
  split; [exact Hbound |].
  destruct (bundle_roundtrip overlapping_pair demo_structure Hbound) as (_ & Heq & _).
  exact Heq.
Defined.

Lemma merge_two_layers_exclusive_witness :
  (forall out, out ∈ Clipping.layers (Clipping.merge overlapping_pair) ->
     Clipping.groups out = 1 ->
     layer_elements out
       ## layer_elements (demo_layer [1; 2]%nat 1)
          ∩ layer_elements (demo_layer [2; 3]%nat 4))
  /\ (exists out, out ∈ Clipping.layers (Clipping.merge overlapping_pair)
                  /\ Clipping.groups out = 4
                  /\ layer_elements (demo_layer [2; 3]%nat 4) ⊆ layer_elements out).
Proof.
  apply (merge_two_layers_exclusive overlapping_pair
           (demo_layer [1; 2]%nat 1) (demo_layer [2; 3]%nat 4)).
  - reflexivity.
  - discriminate.
  - exact demo_overlap.
Defined.

Lemma merge_thrice_witness :
  Clipping.layers (Clipping.merge (Clipping.merge (Clipping.merge three_layers)))
  = Clipping.layers (Clipping.merge three_layers)
  /\ Clipping.areEqual
       (Clipping.merge (Clipping.merge (Clipping.merge three_layers)))
       (Clipping.merge three_layers) = true.
Proof.
  split; [reflexivity |].
  destruct (merge_thrice three_layers) as [_ Heq]. exact Heq.
Defined.

Lemma demo_layer_nonempty (x : nat) (es : list nat) (g : Z) :
  x ∈ es -> layer_elements (demo_layer es g) <> ∅.
Proof.
  intros Hx Hempty. pose proof (demo_layer_elem x es g Hx) as Hin.
  rewrite Hempty in Hin. by apply not_elem_of_empty in Hin.
Qed.

Lemma merge_last_layer_decides_witness :
  demo_layer [1; 2]%nat 1 ∈ Clipping.layers (Clipping.merge three_layers)
  /\ ((2%nat : Element) ∈ layer_elements (demo_layer [1; 2]%nat 1)
      <-> exists j L, Clipping.layers three_layers !! j = Some L
            /\ (2%nat : Element) ∈ layer_elements L
            /\ Clipping.groups L = 1
            /\ forall k L', (j < k)%nat -> Clipping.layers three_layers !! k = Some L' ->
                            (2%nat : Element) ∉ layer_elements L').
Proof.
  assert (demo_layer [1; 2]%nat 1 ∈ Clipping.layers (Clipping.merge three_layers))
    as Hout by (apply (list_elem_of_lookup_2 _ 0%nat); reflexivity).
  split; [exact Hout |].
  exact (merge_last_layer_decides three_layers (demo_layer [1; 2]%nat 1) 2%nat Hout).
Defined.

Lemma merge_collapses_same_groups_witness :
  exists out,
    Clipping.layers (Clipping.merge same_group_pair) = [out]
    /\ Clipping.groups out = 1
    /\ forall e, e ∈ layer_elements out
                 <-> exists L, L ∈ Clipping.layers same_group_pair
                               /\ e ∈ layer_elements L.
Proof.
  apply (merge_collapses_same_groups same_group_pair 1).
  - repeat constructor.
  - exists (demo_layer [1; 2]%nat 1). split; [left |].
    apply (demo_layer_nonempty 1%nat). left.
Defined.

Lemma merge_starts_with_last_layer_witness :
  exists out rest,
    Clipping.layers (Clipping.merge three_layers) = out :: rest
    /\ Clipping.groups out = 1
    /\ layer_elements (demo_layer [2]%nat 1) ⊆ layer_elements out.
Proof.
  apply (merge_starts_with_last_layer three_layers
           [demo_layer [1; 2]%nat 1; demo_layer [2; 3]%nat 4] (demo_layer [2]%nat 1)).
  - reflexivity.
  - apply (demo_layer_nonempty 2%nat). left.
Defined.

Lemma merge_respects_areEqual_witness :
  Clipping.areEqual overlapping_pair overlapping_pair_shuffled = true
  /\ Clipping.areEqual (Clipping.merge overlapping_pair)
                       (Clipping.merge overlapping_pair_shuffled) = true.
Proof.
  split; [reflexivity |].
  apply (merge_respects_areEqual overlapping_pair overlapping_pair_shuffled).
  reflexivity.
Defined.

Lemma areEqual_reads_active_rows_witness :
  let fresh := withClip [] (Clipping.getClip one_sphere None) in
  let reused :=
    withClip [] (Clipping.getClip one_sphere
                   (Some (Clipping.getClip six_descriptors None))) in
  Clipping.Clip.objects (Clipping.getClip one_sphere None)
  <> Clipping.Clip.objects
       (Clipping.getClip one_sphere (Some (Clipping.getClip six_descriptors None)))
  /\ Clipping.areEqual fresh reused = Clipping.areEqual fresh fresh.
Proof.
  split; [discriminate |].
  apply (areEqual_reads_active_rows
           (withClip [] (Clipping.getClip one_sphere None))
           (withClip [] (Clipping.getClip one_sphere None))
           (withClip [] (Clipping.getClip one_sphere None))
           (withClip [] (Clipping.getClip one_sphere
                           (Some (Clipping.getClip six_descriptors None))))).
  - repeat split; intros k Hk; reflexivity.
  - split; [reflexivity |]. split; [reflexivity |]. split; [reflexivity |].
    exact (getClip_rows_agree one_sphere None
             (Some (Clipping.getClip six_descriptors None))).
Defined.

Lemma getClip_writes_in_place_witness :
  let created := InPlace.createClipObjects InPlace.empty_store in
  let clip := {| InPlace.Clip.variant := Clipping.instance;
                 InPlace.Clip.objects := created.1 |} in
  let st' := (InPlace.getClip one_sphere (Some clip) created.2).2 in
  InPlace.separate created.2 created.1
  /\ Clipping.Objects.count (InPlace.deref st' created.1) = 0%nat
  /\ array_get (Clipping.Objects.type (InPlace.deref st' created.1)) 0 = Some 2
  /\ array_get (Clipping.Objects.position (InPlace.deref st' created.1)) 2
     = Some 3%float.
Proof.
  intros created clip st'.
  assert (InPlace.separate created.2 created.1) as Hsep
    by (unfold InPlace.separate; simpl; lia).
  destruct (getClip_writes_in_place one_sphere clip created.2 Hsep)
    as (_ & _ & Hread & _).
  split; [exact Hsep |]. subst st'. change created.1 with (InPlace.Clip.objects clip).
  rewrite Hread. repeat split.
Defined.
